(** * Partition quality scoring of a Mapper graph: [compute_aic]

    Shallow embedding of the notebook function [compute_aic] (hard clustering
    by least distance to the Mapper node centroids, followed by an AIC score)
    and the properties of it stated in the specification.

    Conventions of the embedding.
    - A NumPy [float64] is an extended real: a finite value carried by a real
      number, the two infinities, or NaN.  Rounding and overflow are not
      modelled (finite arithmetic is exact), and there is a single zero, read
      as [+0.0]; the special values follow IEEE 754 as NumPy applies them
      (division by zero and [log 0] give infinities or NaN with a warning,
      not an exception).
    - Python integers and [int64] labels are [Z]; indexing follows Python:
      a negative index counts from the end, anything outside
      [-len .. len-1] raises [IndexError].
    - Exceptions are explicit: a computation returns [Ok v] or [Raise e].
    - Where an outcome depends on rounding or overflow (which candidate is
      nearest, whether [sigma_sq] is zero or infinite), the statement is made
      for every [arithmetic]: the floats computed for the means, the norms
      and the sum of squares are left open in [compute_aic_locals_with], of
      which [compute_aic_locals] is the instance without rounding. *)

From Stdlib Require Import Reals Lra Lia ZArith List Permutation Sorted Bool Arith.
Import ListNotations.
Local Open Scope R_scope.

(** ** Python results *)

Inductive exn : Type := IndexError | ValueError.

Inductive result (A : Type) : Type :=
| Ok (a : A)
| Raise (e : exn).
Arguments Ok {A} a.
Arguments Raise {A} e.

Definition bind {A B : Type} (m : result A) (f : A -> result B) : result B :=
  match m with
  | Ok a => f a
  | Raise e => Raise e
  end.

Notation "x <- m ;; k" := (bind m (fun x => k))
  (at level 61, m at next level, right associativity).

(** A list comprehension whose body may raise: evaluated left to right, the
    first exception wins. *)
Fixpoint mapM {A B : Type} (f : A -> result B) (l : list A) : result (list B) :=
  match l with
  | [] => Ok []
  | a :: l' => b <- f a ;; bs <- mapM f l' ;; Ok (b :: bs)
  end.

Definition raises {A : Type} (m : result A) : Prop := exists e, m = Raise e.

(** ** Python indexing *)

(** [norm_index len i]: the position designated by index [i] in a sequence of
    [len] items, when there is one. *)
Definition norm_index (len : nat) (i : Z) : option nat :=
  if (0 <=? i)%Z then
    if (i <? Z.of_nat len)%Z then Some (Z.to_nat i) else None
  else
    if (- Z.of_nat len <=? i)%Z then Some (Z.to_nat (Z.of_nat len + i)) else None.

(** [l[i]] *)
Definition getitem {A : Type} (l : list A) (i : Z) : result A :=
  match norm_index (length l) i with
  | Some n =>
      match nth_error l n with
      | Some a => Ok a
      | None => Raise IndexError
      end
  | None => Raise IndexError
  end.

(** [l[idx]] for an integer array [idx] (NumPy fancy indexing on axis 0). *)
Definition take {A : Type} (l : list A) (idx : list Z) : result (list A) :=
  mapM (getitem l) idx.

Fixpoint zipWith {A B C : Type} (f : A -> B -> C) (l : list A) (m : list B) : list C :=
  match l, m with
  | a :: l', b :: m' => f a b :: zipWith f l' m'
  | _, _ => []
  end.

(** ** float64 values *)

Module Float64.

Inductive float64 : Type :=
| Fin (r : R)
| PInf
| NInf
| NaN.

Definition Rsign (r : R) : comparison :=
  if Rlt_dec r 0 then Lt else if Rlt_dec 0 r then Gt else Eq.

(** The infinity of a given sign; [0 * inf] and [0 / 0] are NaN. *)
Definition signed_inf (c : comparison) : float64 :=
  match c with
  | Gt => PInf
  | Lt => NInf
  | Eq => NaN
  end.

Definition of_int (z : Z) : float64 := Fin (IZR z).

Definition fneg (x : float64) : float64 :=
  match x with
  | Fin r => Fin (- r)
  | PInf => NInf
  | NInf => PInf
  | NaN => NaN
  end.

Definition fadd (x y : float64) : float64 :=
  match x, y with
  | Fin a, Fin b => Fin (a + b)
  | NaN, _ | _, NaN => NaN
  | PInf, NInf | NInf, PInf => NaN
  | PInf, _ | _, PInf => PInf
  | NInf, _ | _, NInf => NInf
  end.

Definition fsub (x y : float64) : float64 := fadd x (fneg y).

Definition fmul (x y : float64) : float64 :=
  match x, y with
  | Fin a, Fin b => Fin (a * b)
  | NaN, _ | _, NaN => NaN
  | Fin a, PInf | PInf, Fin a => signed_inf (Rsign a)
  | Fin a, NInf | NInf, Fin a => signed_inf (CompOpp (Rsign a))
  | PInf, PInf | NInf, NInf => PInf
  | PInf, NInf | NInf, PInf => NInf
  end.

Definition fdiv (x y : float64) : float64 :=
  match x, y with
  | NaN, _ | _, NaN => NaN
  | Fin a, Fin b => if Req_dec_T b 0 then signed_inf (Rsign a) else Fin (a / b)
  | Fin _, _ => Fin 0
  | PInf, Fin b => if Rlt_dec b 0 then NInf else PInf
  | NInf, Fin b => if Rlt_dec b 0 then PInf else NInf
  | _, _ => NaN
  end.

(** [np.sqrt] *)
Definition fsqrt (x : float64) : float64 :=
  match x with
  | Fin a => if Rlt_dec a 0 then NaN else Fin (sqrt a)
  | PInf => PInf
  | _ => NaN
  end.

(** [np.log] *)
Definition flog (x : float64) : float64 :=
  match x with
  | Fin a => if Rlt_dec 0 a then Fin (ln a) else if Rlt_dec a 0 then NaN else NInf
  | PInf => PInf
  | _ => NaN
  end.

Definition is_nan (x : float64) : bool :=
  match x with
  | NaN => true
  | _ => false
  end.

(** IEEE [x >= y]: false as soon as one side is NaN. *)
Definition fgeb (x y : float64) : bool :=
  match x, y with
  | NaN, _ | _, NaN => false
  | _, NInf => true
  | PInf, _ => true
  | NInf, _ => false
  | Fin _, PInf => false
  | Fin a, Fin b => if Rlt_dec a b then false else true
  end.

(** [np.sum] of a flat array. *)
Definition fsum (l : list float64) : float64 := fold_left fadd l (Fin 0).

(** The scan of [np.argmin] over a float array: [mp] is the least value so far
    and [mi] its position; an entry replaces it when it is not [>= mp], and the
    scan stops at the first NaN. *)
Fixpoint argmin_scan (mi : nat) (mp : float64) (i : nat) (l : list float64) : nat :=
  match l with
  | [] => mi
  | x :: l' =>
      if is_nan mp then mi
      else if negb (fgeb x mp) then argmin_scan i x (S i) l'
      else argmin_scan mi mp (S i) l'
  end.

(** [np.argmin]; [None] stands for the [ValueError] on an empty sequence. *)
Definition argmin (l : list float64) : option nat :=
  match l with
  | [] => None
  | x :: l' => Some (argmin_scan 0 x 1 l')
  end.

(** [np.linalg.norm] of a vector. *)
Definition norm (v : list float64) : float64 :=
  fsqrt (fsum (map (fun x => fmul x x) v)).

End Float64.
Import Float64.

(** ** The data *)

(** A two-dimensional array of finite floats of shape [(length rows, ncols)]. *)
Record ndarray : Type := mk_ndarray { ncols : nat; rows : list (list R) }.

Definition wf_ndarray (X : ndarray) : Prop :=
  Forall (fun r => length r = ncols X) (rows X).

(** Column sums of a stack of rows of width [d]. *)
Definition vsum (d : nat) (rs : list (list R)) : list R :=
  fold_left (zipWith Rplus) rs (repeat 0 d).

(** [np.mean(rs, axis=0)]: column sums over the number of rows; on an empty
    stack this is [0/0], a row of NaN. *)
Definition mean_axis0 (d : nat) (rs : list (list R)) : list float64 :=
  map (fun s => fdiv (Fin s) (Fin (INR (length rs)))) (vsum d rs).

(** Step 1 (lines 68-70): the centroid of each Mapper node,
    [np.array([np.mean(X[node_elements], axis=0) for ...])]. *)
Definition centroids_of (X : ndarray) (nodes_elements : list (list Z))
  : result (list (list float64)) :=
  mapM (fun node_elements =>
          sel <- take (rows X) node_elements ;;
          Ok (mean_axis0 (ncols X) sel))
       nodes_elements.

(** [X[i] - centroids[node_id]] *)
Definition vsub (x : list R) (c : list float64) : list float64 :=
  zipWith (fun a b => fsub (Fin a) b) x c.

(** The list of line 80: the distances of point [x] to the centroids of its
    possible nodes. *)
Definition distances (centroids : list (list float64)) (x : list R)
           (possible_nodes : list Z) : result (list float64) :=
  mapM (fun node_id => c <- getitem centroids node_id ;; Ok (norm (vsub x c)))
       possible_nodes.

(** Body of the loop of step 2.1 for one point (lines 76-82). *)
Definition resolve_point (centroids : list (list float64)) (x : list R)
           (possible_nodes : list Z) : result Z :=
  if Nat.eqb (length possible_nodes) 1 then getitem possible_nodes 0%Z
  else
    ds <- distances centroids x possible_nodes ;;
    match argmin ds with
    | None => Raise ValueError
    | Some rel_idx => getitem possible_nodes (Z.of_nat rel_idx)
    end.

(** Step 2.1 (lines 74-82): [labels_unique].  The loop runs over the rows of [X];
    [X_idx_to_node_idxs[i]] raises [IndexError] once the list is exhausted,
    and entries beyond the number of rows are never read. *)
Fixpoint labels_loop (centroids : list (list float64)) (xs : list (list R))
         (X_idx_to_node_idxs : list (list Z)) : result (list Z) :=
  match xs with
  | [] => Ok []
  | x :: xs' =>
      match X_idx_to_node_idxs with
      | [] => Raise IndexError
      | possible_nodes :: rest =>
          label <- resolve_point centroids x possible_nodes ;;
          labels <- labels_loop centroids xs' rest ;;
          Ok (label :: labels)
      end
  end.

(** [clusters[label].append(i)] (line 90) *)
Definition append_at (clusters : list (list nat)) (label : Z) (i : nat)
  : result (list (list nat)) :=
  match norm_index (length clusters) label with
  | Some j =>
      match nth_error clusters j with
      | Some c => Ok (firstn j clusters ++ (c ++ [i]) :: skipn (S j) clusters)
      | None => Raise IndexError
      end
  | None => Raise IndexError
  end.

(** Step 2.2 (lines 84-90): the loop over [enumerate(labels_unique)], from
    point [i] on. *)
Fixpoint clusters_loop (clusters : list (list nat)) (i : nat) (labels : list Z)
  : result (list (list nat)) :=
  match labels with
  | [] => Ok clusters
  | label :: labels' =>
      let n_clusters_now := Z.of_nat (length clusters) in
      let to_add := (label + 1 - n_clusters_now)%Z in
      let clusters :=
        if (0 <? to_add)%Z then clusters ++ repeat [] (Z.to_nat to_add)
        else clusters in
      clusters <- append_at clusters label i ;;
      clusters_loop clusters (S i) labels'
  end.

(** The truth value of a list, as in [if c]. *)
Definition nonempty {A : Type} (c : list A) : bool :=
  match c with
  | [] => false
  | _ => true
  end.

(** The cluster list: the loop, then [[np.array(c) for c in clusters if c]]
    (line 91). *)
Definition build_clusters (labels_unique : list Z) : result (list (list nat)) :=
  clusters <- clusters_loop [] 0 labels_unique ;;
  Ok (filter nonempty clusters).

(** [np.sum((X - centroids[labels_unique])**2)] (line 96).  When there is no node,
    [centroids] is an array of shape [(0,)], which does not broadcast
    against a [(0, d)] array for [d >= 2]. *)
Definition sum_sq_residuals (X : ndarray) (centroids : list (list float64))
           (labels_unique : list Z) : result float64 :=
  cs <- take centroids labels_unique ;;
  match centroids, rows X with
  | [], [] => if Nat.leb 2 (ncols X) then Raise ValueError else Ok (Fin 0)
  | _, _ =>
      Ok (fsum (concat (zipWith (fun x c => map (fun e => fmul e e) (vsub x c))
                                (rows X) cs)))
  end.

(** Step 3 (lines 94-101).  [ss] is the sum of squared residuals. *)
Definition sigma_sq_of (N d k : Z) (ss : float64) : float64 :=
  fdiv ss (of_int (d * (N - k))).

Definition aic_of (N d k : Z) (cluster_sizes : list Z) (sigma_sq : float64)
  : float64 :=
  let aic :=
    fmul (Fin 2)
         (fsum (map (fun s => fmul (of_int s) (flog (of_int s))) cluster_sizes)) in
  let aic := fsub aic (fmul (of_int (2 * N)) (flog (of_int N))) in
  let aic := fsub aic (fmul (of_int (N * d))
                            (flog (fmul (Fin (2 * PI)) sigma_sq))) in
  let aic := fsub aic (of_int (d * (N - k))) in
  let aic := fsub aic (of_int (2 * k * (d + 1))) in
  aic.

(** The local variables of [compute_aic] when it returns. *)
Record locals : Type := mk_locals {
  labels_unique : list Z;
  clusters : list (list nat);
  cluster_sizes : list Z;
  sigma_sq : float64;
  aic : float64
}.

(** Steps 2.2 and 3: the Scorer, from the hard labels and the centroid table.
    [labels] has one entry per row of [X] (it is allocated as [np.empty(N)]). *)
Definition score_locals (X : ndarray) (centroids : list (list float64))
           (labels : list Z) : result locals :=
  let N := Z.of_nat (length (rows X)) in
  let d := Z.of_nat (ncols X) in
  cl <- build_clusters labels ;;
  let k := Z.of_nat (length cl) in
  let sizes := map (fun c => Z.of_nat (length c)) cl in
  ss <- sum_sq_residuals X centroids labels ;;
  let s := sigma_sq_of N d k ss in
  Ok (mk_locals labels cl sizes s (aic_of N d k sizes s)).

Definition score (X : ndarray) (centroids : list (list float64))
           (labels : list Z) : result float64 :=
  t <- score_locals X centroids labels ;; Ok (aic t).

(** Steps 1 and 2.1: the Resolver. *)
Definition hard_labels (X : ndarray) (nodes_elements X_idx_to_node_idxs : list (list Z))
  : result (list Z) :=
  centroids <- centroids_of X nodes_elements ;;
  labels_loop centroids (rows X) X_idx_to_node_idxs.

Definition compute_aic_locals (X : ndarray)
           (nodes_elements X_idx_to_node_idxs : list (list Z)) : result locals :=
  centroids <- centroids_of X nodes_elements ;;
  labels <- labels_loop centroids (rows X) X_idx_to_node_idxs ;;
  score_locals X centroids labels.

Definition compute_aic (X : ndarray) (nodes_elements X_idx_to_node_idxs : list (list Z))
  : result float64 :=
  t <- compute_aic_locals X nodes_elements X_idx_to_node_idxs ;; Ok (aic t).

(** ** The specification's vocabulary *)

(** Number of points and ambient dimension, [N, d = X.shape]. *)
Definition npoints (X : ndarray) : nat := length (rows X).

Definition in_range (n : nat) (i : Z) : Prop := (0 <= i < Z.of_nat n)%Z.

(** The part of validity that the indexing relies on: an [N x d] matrix with
    [N >= 1], one non-empty candidate list per point, identifiers that
    designate nodes, and nodes that are non-empty sets of points. *)
Record well_indexed (X : ndarray) (nodes_elements X_idx_to_node_idxs : list (list Z))
  : Prop := mk_well_indexed {
  wi_wf : wf_ndarray X;
  wi_N : (1 <= npoints X)%nat;
  wi_len : length X_idx_to_node_idxs = npoints X;
  wi_cand_nonempty : Forall (fun p => p <> []) X_idx_to_node_idxs;
  wi_cand_range :
    Forall (Forall (in_range (length nodes_elements))) X_idx_to_node_idxs;
  wi_nodes :
    Forall (fun el => el <> [] /\ Forall (in_range (npoints X)) el) nodes_elements
}.

(** A valid input has moreover [d >= 1]. *)
Definition valid_input (X : ndarray) (nodes_elements X_idx_to_node_idxs : list (list Z))
  : Prop :=
  well_indexed X nodes_elements X_idx_to_node_idxs /\ (1 <= ncols X)%nat.

(** [l @ i]: the item at a non-negative position, for statements. *)
Definition at_ {A : Type} (dflt : A) (l : list A) (i : Z) : A :=
  nth (Z.to_nat i) l dflt.

Definition Rsum (l : list R) : R := fold_left Rplus l 0.

(** Squared Euclidean distance and Euclidean distance between two points. *)
Definition sqdist (x c : list R) : R :=
  Rsum (zipWith (fun a b => (a - b) * (a - b)) x c).

Definition dist (x c : list R) : R := sqrt (sqdist x c).

(** The centroid of a node: the mean of the points listed as its elements. *)
Definition node_centroid (X : ndarray) (node_elements : list Z) : list R :=
  map (fun s => s / INR (length node_elements))
      (vsum (ncols X) (map (at_ [] (rows X)) node_elements)).


(** The points that carry label [l]. *)
Fixpoint members_from (i : nat) (l : Z) (labels : list Z) : list nat :=
  match labels with
  | [] => []
  | l' :: labels' =>
      if Z.eqb l' l then i :: members_from (S i) l labels'
      else members_from (S i) l labels'
  end.

Definition members (l : Z) (labels : list Z) : list nat := members_from 0 l labels.

(** The sum of the squared distances of the points to the node centroid that
    their label designates: what [compute_aic] divides by [d * (N - k)]. *)
Definition node_residual (X : ndarray) (nodes_elements : list (list Z))
           (labels : list Z) : R :=
  Rsum (zipWith (fun x l => sqdist x (node_centroid X (at_ [] nodes_elements l)))
                (rows X) labels).


(** The score of section 4.2 for [k] clusters of the given sizes. *)
Definition aic_value (N d k : Z) (cluster_sizes : list Z) (sigma_sq : R) : R :=
  2 * Rsum (map (fun s => IZR s * ln (IZR s)) cluster_sizes)
  - 2 * IZR N * ln (IZR N)
  - IZR N * IZR d * ln (2 * PI * sigma_sq)
  - IZR d * (IZR N - IZR k)
  - 2 * IZR k * (IZR d + 1).

(** The general rule of the Resolver, without the single-candidate shortcut. *)
Definition resolve_point_general (centroids : list (list float64)) (x : list R)
           (possible_nodes : list Z) : result Z :=
  ds <- distances centroids x possible_nodes ;;
  match argmin ds with
  | None => Raise ValueError
  | Some rel_idx => getitem possible_nodes (Z.of_nat rel_idx)
  end.

Fixpoint labels_loop_general (centroids : list (list float64)) (xs : list (list R))
         (X_idx_to_node_idxs : list (list Z)) : result (list Z) :=
  match xs with
  | [] => Ok []
  | x :: xs' =>
      match X_idx_to_node_idxs with
      | [] => Raise IndexError
      | possible_nodes :: rest =>
          label <- resolve_point_general centroids x possible_nodes ;;
          labels <- labels_loop_general centroids xs' rest ;;
          Ok (label :: labels)
      end
  end.

Definition hard_labels_general (X : ndarray)
           (nodes_elements X_idx_to_node_idxs : list (list Z)) : result (list Z) :=
  centroids <- centroids_of X nodes_elements ;;
  labels_loop_general centroids (rows X) X_idx_to_node_idxs.

(** [j] is the first position of the least value of [l]: what [np.argmin]
    returns on finite values. *)
Definition first_min (l : list R) (j : nat) : Prop :=
  exists v, nth_error l j = Some v
            /\ (forall y, In y l -> v <= y)
            /\ (forall t y, (t < j)%nat -> nth_error l t = Some y -> v < y).

(** The centroid table of step 1 when every node is a non-empty set of
    points: all its entries are finite. *)
Definition table (X : ndarray) (nodes_elements : list (list Z))
  : list (list float64) :=
  map (fun el => map Fin (node_centroid X el)) nodes_elements.

(** The centroid that identifier [c] designates. *)
Definition centroid (X : ndarray) (nodes_elements : list (list Z)) (c : Z)
  : list R :=
  node_centroid X (at_ [] nodes_elements c).

(** What the resolver returns for one point: the candidate at the first
    position of the least distance. *)
Definition nearest (X : ndarray) (nodes_elements : list (list Z))
           (x : list R) (p : list Z) (l : Z) : Prop :=
  exists j, nth_error p j = Some l
            /\ first_min (map (fun c => dist x (centroid X nodes_elements c)) p) j.

(** The labels of all the points, position by position. *)
Inductive resolved (X : ndarray) (nodes_elements : list (list Z))
  : list (list R) -> list (list Z) -> list Z -> Prop :=
| resolved_nil : resolved X nodes_elements [] [] []
| resolved_cons x xs p cand l labels :
    nearest X nodes_elements x p l ->
    resolved X nodes_elements xs cand labels ->
    resolved X nodes_elements (x :: xs) (p :: cand) (l :: labels).

(** The loop invariant for non-negative labels: slot [j] holds the points
    seen so far that carry label [j], and every label seen has a slot. *)
Definition slots_of (pre : list Z) (cl : list (list nat)) : Prop :=
  (forall j, (j < length cl)%nat -> nth j cl [] = members (Z.of_nat j) pre)
  /\ Forall (in_range (length cl)) pre.

(** The value of the locals in terms of the labels and the cluster list. *)
Definition locals_of (X : ndarray) (nodes_elements : list (list Z))
           (labels : list Z) (cl : list (list nat)) : locals :=
  let N := Z.of_nat (npoints X) in
  let d := Z.of_nat (ncols X) in
  let k := Z.of_nat (length cl) in
  let sizes := map (fun c => Z.of_nat (length c)) cl in
  let s := sigma_sq_of N d k (Fin (node_residual X nodes_elements labels)) in
  mk_locals labels cl sizes s (aic_of N d k sizes s).

(** ** Inputs of the scenarios *)

(** Scenario 2 of the specification. *)
Definition X_far : ndarray := mk_ndarray 1 [[0]; [1]; [9]; [10]].
Definition nodes_pairs : list (list Z) := [[0; 1]; [2; 3]]%Z.
Definition cells_pairs : list (list Z) := [[0]; [0]; [1]; [1]]%Z.

(** Scenario 1: the points of each node coincide. *)
Definition X_coincident : ndarray := mk_ndarray 1 [[0]; [0]; [10]; [10]].

(** Scenario 3: two overlapping nodes, the middle point at equal distance
    from both centroids. *)
Definition X_line : ndarray := mk_ndarray 1 [[0]; [1]; [2]].
Definition nodes_overlap : list (list Z) := [[0; 1]; [1; 2]]%Z.
Definition cells_overlap : list (list Z) := [[0]; [0; 1]; [1]]%Z.

(** Two points, each the sole element of its own node: [k = N]. *)
Definition X_two : ndarray := mk_ndarray 1 [[0]; [1]].
Definition nodes_singletons : list (list Z) := [[0]; [1]]%Z.
Definition cells_singletons : list (list Z) := [[0]; [1]]%Z.

(** A negative identifier in a single-candidate list. *)
Definition X_three : ndarray := mk_ndarray 1 [[0]; [1]; [3]].
Definition nodes_all : list (list Z) := [[0; 1; 2]]%Z.
Definition cells_negative : list (list Z) := [[0]; [0]; [-1]]%Z.


(** ** The caller: [AIC_score] and the selection of the best score *)

(** A vertex of the fitted Mapper graph, with the attributes [AIC_score]
    reads. *)
Record vertex : Type := mk_vertex {
  pullback_set_label : Z;
  partial_cluster_label : Z;
  node_elements : list Z
}.

(** The tuples [(pullback_set_label, partial_cluster_label)]. *)
Definition key : Type := (Z * Z)%type.

Definition vertex_key (v : vertex) : key :=
  (pullback_set_label v, partial_cluster_label v).

Definition key_eqb (a b : key) : bool :=
  Z.eqb (fst a) (fst b) && Z.eqb (snd a) (snd b).

(** A Python dict from tuples to integers: an association list with at most
    one entry per key. *)
Definition dict : Type := list (key * nat).

(** [d[k] = v] *)
Fixpoint dict_set (d : dict) (k : key) (v : nat) : dict :=
  match d with
  | [] => [(k, v)]
  | (k', v') :: d' =>
      if key_eqb k' k then (k', v) :: d' else (k', v') :: dict_set d' k v
  end.

(** [d[k]], [None] standing for [KeyError]. *)
Fixpoint dict_get (d : dict) (k : key) : option nat :=
  match d with
  | [] => None
  | (k', v') :: d' => if key_eqb k' k then Some v' else dict_get d' k
  end.

(** The dict comprehension of lines 131-132, from vertex [i] on:
    [{(nodes[i]["pullback_set_label"], nodes[i]["partial_cluster_label"]): i
      for i in range(len(nodes))}]. *)
Fixpoint global_ids_from (i : nat) (nodes : list vertex) (d : dict) : dict :=
  match nodes with
  | [] => d
  | v :: nodes' => global_ids_from (S i) nodes' (dict_set d (vertex_key v) i)
  end.

Definition global_ids (nodes : list vertex) : dict := global_ids_from 0 nodes [].

(** The exceptions of the caller: a missing dict key, or an exception of the
    kinds met in [compute_aic]. *)
Inductive caller_exn : Type :=
| KeyError (k : key)
| Inner (e : exn).

Inductive outcome (A : Type) : Type :=
| Done (a : A)
| Fail (e : caller_exn).
Arguments Done {A} a.
Arguments Fail {A} e.

Definition obind {A B : Type} (m : outcome A) (f : A -> outcome B) : outcome B :=
  match m with
  | Done a => f a
  | Fail e => Fail e
  end.

Fixpoint omapM {A B : Type} (f : A -> outcome B) (l : list A) : outcome (list B) :=
  match l with
  | [] => Done []
  | a :: l' => obind (f a) (fun b => obind (omapM f l') (fun bs => Done (b :: bs)))
  end.

(** [[global_ids[tup] for tup in labels[i]]] (line 134) *)
Definition lookup_ids (gids : dict) (tups : list key) : outcome (list Z) :=
  omapM (fun tup =>
           match dict_get gids tup with
           | Some i => Done (Z.of_nat i)
           | None => Fail (KeyError tup)
           end)
        tups.

(** Lines 134-135: one list of identifiers for each of the first [n] points;
    [labels[i]] raises [IndexError] once [labels] is exhausted. *)
Fixpoint node_idxs (gids : dict) (n : nat) (labels : list (list key))
  : outcome (list (list Z)) :=
  match n with
  | O => Done []
  | S n' =>
      match labels with
      | [] => Fail (Inner IndexError)
      | tups :: rest =>
          obind (lookup_ids gids tups) (fun p =>
          obind (node_idxs gids n' rest) (fun ps => Done (p :: ps)))
      end
  end.

(** [AIC_score] from its step 2 on (lines 124-138).  Step 1 clones and fits
    the pipeline, which is library code: its outcome, the vertices of the
    graph and the [labels_] of the clustering step, is taken as input, as is
    the data [X] that the notebook holds in a global. *)
Definition AIC_score {P : Type} (pipeline_params : P) (X : ndarray)
           (nodes : list vertex) (labels : list (list key))
  : outcome (P * float64) :=
  let nodes_elements := map node_elements nodes in
  let gids := global_ids nodes in
  obind (node_idxs gids (length (rows X)) labels) (fun X_idx_to_node_idxs =>
  match compute_aic X nodes_elements X_idx_to_node_idxs with
  | Ok v => Done (pipeline_params, v)
  | Raise e => Fail (Inner e)
  end).

(** IEEE [x <= y]: false as soon as one side is NaN. *)
Definition fleb (x y : float64) : bool :=
  match x, y with
  | NaN, _ | _, NaN => false
  | NInf, _ => true
  | _, PInf => true
  | PInf, _ => false
  | Fin _, NInf => false
  | Fin a, Fin b => if Rlt_dec b a then false else true
  end.

(** The scan of [np.argmax] over a float array: an entry replaces the
    greatest value so far when it is not [<=] it, and the scan stops at the
    first NaN. *)
Fixpoint argmax_scan (mi : nat) (mp : float64) (i : nat) (l : list float64) : nat :=
  match l with
  | [] => mi
  | x :: l' =>
      if is_nan mp then mi
      else if negb (fleb x mp) then argmax_scan i x (S i) l'
      else argmax_scan mi mp (S i) l'
  end.

(** [np.argmax]; [None] stands for the [ValueError] on an empty sequence. *)
Definition argmax (l : list float64) : option nat :=
  match l with
  | [] => None
  | x :: l' => Some (argmax_scan 0 x 1 l')
  end.

(** Lines 182-183: [best_idx = np.argmax([r[1] for r in grid_search_results])]
    and [grid_search_results[best_idx]]. *)
Definition select_best {P : Type} (grid_search_results : list (P * float64))
  : result (P * float64) :=
  match argmax (map snd grid_search_results) with
  | None => Raise ValueError
  | Some best_idx => getitem grid_search_results (Z.of_nat best_idx)
  end.

(** The order of the non-NaN floats: [-inf] below the finite values, [+inf]
    above them. *)
Definition fle (x y : float64) : Prop :=
  match x, y with
  | NaN, _ | _, NaN => False
  | NInf, _ => True
  | _, PInf => True
  | PInf, _ => False
  | Fin _, NInf => False
  | Fin a, Fin b => a <= b
  end.

(** The last position of a vertex with key [k], when there is one. *)
Fixpoint last_key_index (k : key) (nodes : list vertex) : option nat :=
  match nodes with
  | [] => None
  | v :: nodes' =>
      match last_key_index k nodes' with
      | Some j => Some (S j)
      | None => if key_eqb (vertex_key v) k then Some O else None
      end
  end.

(** An identifier [c] designates a vertex that carries the tuple [tup]. *)
Definition designates (nodes : list vertex) (c : Z) (tup : key) : Prop :=
  in_range (length nodes) c
  /\ exists v, nth_error nodes (Z.to_nat c) = Some v /\ vertex_key v = tup.

(** Some vertex carries the tuple [tup]. *)
Definition known (nodes : list vertex) (tup : key) : Prop :=
  exists v, In v nodes /\ vertex_key v = tup.

(** The only exception that a computation may raise is [IndexError]. *)
Definition only_IndexError {A : Type} (m : result A) : Prop :=
  forall e, m = Raise e -> e = IndexError.

(** ** [compute_aic] for any floating-point arithmetic *)

(** The loop of step 2.1 again, with the arithmetic of line 80 left open:
    [dist_fl x c] stands for the float that the machine computes for
    [np.linalg.norm(X[i] - centroids[node_id])], whatever its rounding. *)
Definition distances_with (dist_fl : list R -> list float64 -> float64)
           (centroids : list (list float64)) (x : list R)
           (possible_nodes : list Z) : result (list float64) :=
  mapM (fun node_id => c <- getitem centroids node_id ;; Ok (dist_fl x c))
       possible_nodes.

Definition resolve_point_with (dist_fl : list R -> list float64 -> float64)
           (centroids : list (list float64)) (x : list R)
           (possible_nodes : list Z) : result Z :=
  if Nat.eqb (length possible_nodes) 1 then getitem possible_nodes 0%Z
  else
    ds <- distances_with dist_fl centroids x possible_nodes ;;
    match argmin ds with
    | None => Raise ValueError
    | Some rel_idx => getitem possible_nodes (Z.of_nat rel_idx)
    end.

Fixpoint labels_loop_with (dist_fl : list R -> list float64 -> float64)
         (centroids : list (list float64)) (xs : list (list R))
         (X_idx_to_node_idxs : list (list Z)) : result (list Z) :=
  match xs with
  | [] => Ok []
  | x :: xs' =>
      match X_idx_to_node_idxs with
      | [] => Raise IndexError
      | possible_nodes :: rest =>
          label <- resolve_point_with dist_fl centroids x possible_nodes ;;
          labels <- labels_loop_with dist_fl centroids xs' rest ;;
          Ok (label :: labels)
      end
  end.

(** Line 80 as the embedding computes it: no rounding. *)
Definition exact_distance (x : list R) (c : list float64) : float64 :=
  norm (vsub x c).

(** The integers that an [int64] array holds. *)
Definition int64 (c : Z) : Prop := (- 2 ^ 63 <= c < 2 ^ 63)%Z.

(** [j] is the position that [np.argmin] returns on the floats [ds]: the
    first NaN when there is one, and otherwise the first position of the
    least value. *)
Definition first_least (ds : list float64) (j : nat) : Prop :=
  exists v, nth_error ds j = Some v
            /\ (v <> NaN ->
                (forall y, In y ds -> fle v y)
                /\ (forall t y, (t < j)%nat -> nth_error ds t = Some y -> ~ fle y v))
            /\ (v = NaN ->
                forall t y, (t < j)%nat -> nth_error ds t = Some y -> y <> NaN).

(** The array arithmetic of [compute_aic], left open: the floats that the
    machine computes for [np.mean(X[node_elements], axis=0)] (line 69), for
    [np.linalg.norm(X[i] - centroids[node_id])] (line 80) and for
    [np.sum((X - centroids[labels_unique])**2)] (line 96), whatever their
    rounding and overflow. *)
Record arithmetic : Type := mk_arithmetic {
  mean_fl : nat -> list (list R) -> list float64;
  norm_fl : list R -> list float64 -> float64;
  sum_sq_fl : list (list R) -> list (list float64) -> float64
}.

Definition exact_sum_sq (xs : list (list R)) (cs : list (list float64)) : float64 :=
  fsum (concat (zipWith (fun x c => map (fun e => fmul e e) (vsub x c)) xs cs)).

(** The arithmetic of the embedding: no rounding. *)
Definition exact : arithmetic := mk_arithmetic mean_axis0 exact_distance exact_sum_sq.

(** Step 1 (lines 68-70). *)
Definition centroids_of_with (A : arithmetic) (X : ndarray)
           (nodes_elements : list (list Z)) : result (list (list float64)) :=
  mapM (fun node_elements =>
          sel <- take (rows X) node_elements ;;
          Ok (mean_fl A (ncols X) sel))
       nodes_elements.

(** Line 96, the sum. *)
Definition sum_sq_residuals_with (A : arithmetic) (X : ndarray)
           (centroids : list (list float64)) (labels_unique : list Z)
  : result float64 :=
  cs <- take centroids labels_unique ;;
  match centroids, rows X with
  | [], [] => if Nat.leb 2 (ncols X) then Raise ValueError else Ok (Fin 0)
  | _, _ => Ok (sum_sq_fl A (rows X) cs)
  end.

(** Steps 2.2 and 3. *)
Definition score_locals_with (A : arithmetic) (X : ndarray)
           (centroids : list (list float64)) (labels : list Z) : result locals :=
  let N := Z.of_nat (length (rows X)) in
  let d := Z.of_nat (ncols X) in
  cl <- build_clusters labels ;;
  let k := Z.of_nat (length cl) in
  let sizes := map (fun c => Z.of_nat (length c)) cl in
  ss <- sum_sq_residuals_with A X centroids labels ;;
  let s := sigma_sq_of N d k ss in
  Ok (mk_locals labels cl sizes s (aic_of N d k sizes s)).

(** The whole function (lines 62-103). *)
Definition compute_aic_locals_with (A : arithmetic) (X : ndarray)
           (nodes_elements X_idx_to_node_idxs : list (list Z)) : result locals :=
  centroids <- centroids_of_with A X nodes_elements ;;
  labels <- labels_loop_with (norm_fl A) centroids (rows X) X_idx_to_node_idxs ;;
  score_locals_with A X centroids labels.

Definition compute_aic_with (A : arithmetic) (X : ndarray)
           (nodes_elements X_idx_to_node_idxs : list (list Z)) : result float64 :=
  t <- compute_aic_locals_with A X nodes_elements X_idx_to_node_idxs ;; Ok (aic t).

(** ** Tactics *)

Ltac rdec :=
  repeat match goal with
    | |- context [Rlt_dec ?a ?b] => destruct (Rlt_dec a b); try lra
    | |- context [Req_dec_T ?a ?b] => destruct (Req_dec_T a b); try lra
    end.

Ltac solve_valid :=
  try split;
  repeat (first [ lia | discriminate | reflexivity
                | progress (unfold wf_ndarray, npoints, in_range; simpl)
                | constructor ]).

(** ** Basic facts *)

Lemma bind_Ok {A B : Type} (m : result A) (f : A -> result B) (b : B) :
  bind m f = Ok b -> exists a, m = Ok a /\ f a = Ok b.
Proof. destruct m as [a|e]; simpl; intros H; [eauto | discriminate]. Qed.

Lemma mapM_length {A B : Type} (f : A -> result B) (l : list A) (bs : list B) :
  mapM f l = Ok bs -> length bs = length l.
Proof.
  revert bs; induction l as [|a l IH]; simpl; intros bs H.
  - now inversion H.
  - destruct (f a) as [b|e]; simpl in H; [|discriminate].
    destruct (mapM f l) as [bs'|e]; simpl in H; [|discriminate].
    inversion H; subst; simpl; f_equal; now apply IH.
Qed.

Lemma mapM_Ok_map {A B : Type} (f : A -> result B) (g : A -> B) (l : list A) :
  Forall (fun a => f a = Ok (g a)) l -> mapM f l = Ok (map g l).
Proof.
  induction 1 as [|a l Ha _ IH]; simpl; [reflexivity|].
  now rewrite Ha, IH.
Qed.

Lemma mapM_raises {A B : Type} (f : A -> result B) (l : list A) (a : A) :
  In a l -> raises (f a) -> raises (mapM f l).
Proof.
  induction l as [|a' l IH]; simpl; [tauto|].
  intros [->|Hin] Hr.
  - destruct Hr as [e ->]; now exists e.
  - destruct (f a') as [b|e]; simpl; [|now exists e].
    destruct (IH Hin Hr) as [e ->]; now exists e.
Qed.

Lemma norm_index_in_range (n : nat) (i : Z) :
  in_range n i -> norm_index n i = Some (Z.to_nat i).
Proof.
  unfold in_range, norm_index; intros [H0 H1].
  destruct (Z.leb_spec 0 i); [|lia].
  destruct (Z.ltb_spec i (Z.of_nat n)); [reflexivity|lia].
Qed.

Lemma norm_index_lt (n : nat) (i : Z) (j : nat) :
  norm_index n i = Some j -> (j < n)%nat.
Proof.
  unfold norm_index.
  destruct (Z.leb_spec 0 i).
  - destruct (Z.ltb_spec i (Z.of_nat n)); [|discriminate].
    intros H'; inversion H'; lia.
  - destruct (Z.leb_spec (- Z.of_nat n) i); [|discriminate].
    intros H'; inversion H'; lia.
Qed.

Lemma norm_index_None (n : nat) (i : Z) :
  norm_index n i = None <-> (i < - Z.of_nat n \/ Z.of_nat n <= i)%Z.
Proof.
  unfold norm_index.
  destruct (Z.leb_spec 0 i).
  - destruct (Z.ltb_spec i (Z.of_nat n)); split; intros; try discriminate; try lia.
    reflexivity.
  - destruct (Z.leb_spec (- Z.of_nat n) i); split; intros; try discriminate; try lia.
    reflexivity.
Qed.

Lemma getitem_in_range {A : Type} (dflt : A) (l : list A) (i : Z) :
  in_range (length l) i -> getitem l i = Ok (at_ dflt l i).
Proof.
  intros H; unfold getitem, at_.
  rewrite (norm_index_in_range _ _ H).
  destruct H as [H0 H1].
  assert (Hlt : (Z.to_nat i < length l)%nat) by lia.
  destruct (nth_error l (Z.to_nat i)) as [a|] eqn:E.
  - f_equal. symmetry. now apply nth_error_nth.
  - apply nth_error_None in E; lia.
Qed.

Lemma getitem_raises {A : Type} (l : list A) (i : Z) :
  (i < - Z.of_nat (length l) \/ Z.of_nat (length l) <= i)%Z -> raises (getitem l i).
Proof.
  intros H; unfold getitem.
  apply norm_index_None in H; rewrite H. now exists IndexError.
Qed.

Lemma getitem_of_nat {A : Type} (l : list A) (j : nat) (a : A) :
  nth_error l j = Some a -> getitem l (Z.of_nat j) = Ok a.
Proof.
  intros H. unfold getitem.
  assert (Hlt : (j < length l)%nat) by (apply nth_error_Some; congruence).
  rewrite norm_index_in_range by (unfold in_range; lia).
  now rewrite Nat2Z.id, H.
Qed.

(** ** Sums *)

Lemma fold_Rplus_acc (l : list R) (a : R) : fold_left Rplus l a = a + Rsum l.
Proof.
  unfold Rsum. revert a; induction l as [|x l IH]; simpl; intros a; [lra|].
  rewrite (IH (a + x)), (IH (0 + x)); lra.
Qed.

Lemma Rsum_nil : Rsum [] = 0.
Proof. reflexivity. Qed.

Lemma Rsum_cons (x : R) (l : list R) : Rsum (x :: l) = x + Rsum l.
Proof. unfold Rsum at 1; simpl. rewrite fold_Rplus_acc; lra. Qed.

Lemma Rsum_app (l m : list R) : Rsum (l ++ m) = Rsum l + Rsum m.
Proof.
  induction l as [|x l IH]; simpl.
  - rewrite Rsum_nil; lra.
  - rewrite !Rsum_cons, IH; lra.
Qed.

Lemma Rsum_concat (ll : list (list R)) : Rsum (concat ll) = Rsum (map Rsum ll).
Proof.
  induction ll as [|l ll IH]; simpl; [reflexivity|].
  now rewrite Rsum_app, Rsum_cons, IH.
Qed.

Lemma Rsum_nonneg (l : list R) : Forall (fun x => 0 <= x) l -> 0 <= Rsum l.
Proof.
  induction 1 as [|x l Hx _ IH]; [rewrite Rsum_nil; lra|].
  rewrite Rsum_cons; lra.
Qed.


Lemma fold_fadd_Fin (l : list R) (a : R) :
  fold_left fadd (map Fin l) (Fin a) = Fin (fold_left Rplus l a).
Proof. revert a; induction l as [|x l IH]; simpl; intros a; [reflexivity | apply IH]. Qed.

Lemma fsum_Fin (l : list R) : fsum (map Fin l) = Fin (Rsum l).
Proof. apply fold_fadd_Fin. Qed.

Lemma zipWith_map_r {A B B' C : Type} (f : A -> B -> C) (g : B' -> B)
      (l : list A) (m : list B') :
  zipWith f l (map g m) = zipWith (fun a b => f a (g b)) l m.
Proof.
  revert m; induction l as [|a l IH]; intros [|b m]; simpl; auto.
  now rewrite IH.
Qed.

Lemma map_zipWith {A B C D : Type} (g : C -> D) (f : A -> B -> C)
      (l : list A) (m : list B) :
  map g (zipWith f l m) = zipWith (fun a b => g (f a b)) l m.
Proof.
  revert m; induction l as [|a l IH]; intros [|b m]; simpl; auto.
  now rewrite IH.
Qed.

Lemma sqdist_nonneg (x c : list R) : 0 <= sqdist x c.
Proof.
  unfold sqdist. apply Rsum_nonneg.
  revert c; induction x as [|a x IH]; intros [|b c]; simpl; constructor; auto.
  apply (Rle_0_sqr (a - b)).
Qed.

(** ** Finite arithmetic stays finite *)

Lemma squares_vsub_Fin (x c : list R) :
  map (fun e => fmul e e) (vsub x (map Fin c)) =
  map Fin (zipWith (fun a b => (a - b) * (a - b)) x c).
Proof.
  unfold vsub. rewrite zipWith_map_r, !map_zipWith.
  revert c; induction x as [|a x IH]; intros [|b c]; simpl; auto.
Qed.

Lemma norm_vsub_Fin (x c : list R) : norm (vsub x (map Fin c)) = Fin (dist x c).
Proof.
  unfold norm. rewrite squares_vsub_Fin, fsum_Fin. simpl.
  fold (sqdist x c). pose proof (sqdist_nonneg x c).
  destruct (Rlt_dec (sqdist x c) 0); [lra | reflexivity].
Qed.

Lemma mean_axis0_Fin (d : nat) (rs : list (list R)) :
  rs <> [] ->
  mean_axis0 d rs = map Fin (map (fun s => s / INR (length rs)) (vsum d rs)).
Proof.
  intros Hne. unfold mean_axis0. rewrite map_map.
  apply map_ext; intros s. simpl.
  destruct (Req_dec_T (INR (length rs)) 0) as [E|E]; [|reflexivity].
  destruct rs; [congruence|]. exfalso. revert E. apply not_0_INR. simpl; lia.
Qed.

Lemma flog_pos (a : R) : 0 < a -> flog (Fin a) = Fin (ln a).
Proof. intros H; simpl. destruct (Rlt_dec 0 a); [reflexivity | lra]. Qed.

Lemma flog_zero : flog (Fin 0) = NInf.
Proof. simpl. rdec. reflexivity. Qed.

(** ** [np.argmin] on finite values: the first position of the minimum *)

Lemma argmin_scan_Fin (l : list R) :
  forall (pre : list R) (mp : R) (mi : nat),
    nth_error pre mi = Some mp ->
    (forall y, In y pre -> mp <= y) ->
    (forall t y, (t < mi)%nat -> nth_error pre t = Some y -> mp < y) ->
    first_min (pre ++ l) (argmin_scan mi (Fin mp) (length pre) (map Fin l)).
Proof.
  induction l as [|x l IH]; intros pre mp mi Hmi Hmin Hfirst.
  - simpl. rewrite app_nil_r. exists mp. auto.
  - assert (Hlt : (mi < length pre)%nat) by (apply nth_error_Some; congruence).
    replace (pre ++ x :: l) with ((pre ++ [x]) ++ l) by (now rewrite <- app_assoc).
    simpl. destruct (Rlt_dec x mp) as [Hx|Hx]; simpl.
    + replace (S (length pre)) with (length (pre ++ [x])) by (rewrite length_app; simpl; lia).
      replace (length pre) with (length pre + 0)%nat at 1 by lia.
      apply IH.
      * rewrite nth_error_app2 by lia.
        replace (length pre + 0 - length pre)%nat with 0%nat by lia. reflexivity.
      * intros y Hy. apply in_app_or in Hy as [Hy|[<-|[]]]; [|lra].
        specialize (Hmin y Hy); lra.
      * intros t y Ht Hy. rewrite nth_error_app1 in Hy by lia.
        apply nth_error_In in Hy. specialize (Hmin y Hy); lra.
    + replace (S (length pre)) with (length (pre ++ [x])) by (rewrite length_app; simpl; lia).
      apply IH.
      * rewrite nth_error_app1 by lia. exact Hmi.
      * intros y Hy. apply in_app_or in Hy as [Hy|[<-|[]]]; [auto|lra].
      * intros t y Ht Hy. rewrite nth_error_app1 in Hy by lia. eauto.
Qed.

Lemma argmin_Fin (l : list R) :
  l <> [] -> exists j, argmin (map Fin l) = Some j /\ first_min l j.
Proof.
  destruct l as [|x l]; [congruence|]. intros _.
  exists (argmin_scan 0 (Fin x) 1 (map Fin l)); split; [reflexivity|].
  apply (argmin_scan_Fin l [x] x 0%nat).
  - reflexivity.
  - intros y [<-|[]]; lra.
  - intros t y Ht; lia.
Qed.

Lemma first_min_lt (l : list R) (j : nat) : first_min l j -> (j < length l)%nat.
Proof. intros (v & Hv & _). apply nth_error_Some; congruence. Qed.

(** ** Steps 1 and 2.1 on a valid node table *)

Lemma take_in_range {A : Type} (dflt : A) (l : list A) (idx : list Z) :
  Forall (in_range (length l)) idx -> take l idx = Ok (map (at_ dflt l) idx).
Proof.
  intros H. apply mapM_Ok_map.
  eapply Forall_impl; [|exact H]. intros i Hi. now apply getitem_in_range.
Qed.

Lemma at_map {A B : Type} (f : A -> B) (dflt : A) (l : list A) (i : Z) :
  at_ (f dflt) (map f l) i = f (at_ dflt l i).
Proof. unfold at_. apply map_nth. Qed.

Section ValidTable.

Variable X : ndarray.
Variable nodes_elements : list (list Z).

Hypothesis nodes_ok :
  Forall (fun el => el <> [] /\ Forall (in_range (npoints X)) el) nodes_elements.

Lemma centroids_of_valid :
  centroids_of X nodes_elements = Ok (table X nodes_elements).
Proof.
  unfold centroids_of, table. apply mapM_Ok_map.
  eapply Forall_impl; [|exact nodes_ok].
  intros el [Hne Hr].
  rewrite (take_in_range [] _ _ Hr). simpl.
  rewrite mean_axis0_Fin by (destruct el; [congruence | discriminate]).
  unfold node_centroid. now rewrite length_map.
Qed.

Lemma table_length : length (table X nodes_elements) = length nodes_elements.
Proof. unfold table. apply length_map. Qed.

Lemma table_getitem (c : Z) :
  in_range (length nodes_elements) c ->
  getitem (table X nodes_elements) c = Ok (map Fin (centroid X nodes_elements c)).
Proof.
  intros Hc.
  rewrite (getitem_in_range (map Fin (node_centroid X [])))
    by (now rewrite table_length).
  unfold table. now rewrite (at_map (fun el => map Fin (node_centroid X el))).
Qed.

Lemma distances_valid (x : list R) (p : list Z) :
  Forall (in_range (length nodes_elements)) p ->
  distances (table X nodes_elements) x p
  = Ok (map Fin (map (fun c => dist x (centroid X nodes_elements c)) p)).
Proof.
  intros Hp. unfold distances. rewrite map_map. apply mapM_Ok_map.
  eapply Forall_impl; [|exact Hp]. intros c Hc.
  rewrite (table_getitem c Hc). simpl. now rewrite norm_vsub_Fin.
Qed.

Lemma resolve_point_general_valid (x : list R) (p : list Z) :
  p <> [] -> Forall (in_range (length nodes_elements)) p ->
  exists l, resolve_point_general (table X nodes_elements) x p = Ok l
            /\ nearest X nodes_elements x p l.
Proof.
  intros Hne Hp. unfold resolve_point_general.
  rewrite (distances_valid x p Hp). simpl.
  destruct (argmin_Fin (map (fun c => dist x (centroid X nodes_elements c)) p)) as (j & Hj & Hfm).
  { destruct p; [congruence | discriminate]. }
  rewrite Hj.
  pose proof (first_min_lt _ _ Hfm) as Hlt. rewrite length_map in Hlt.
  destruct (nth_error p j) as [l|] eqn:E; [|apply nth_error_None in E; lia].
  exists l. split; [now apply getitem_of_nat | exists j; auto].
Qed.

Lemma resolve_point_shortcut (x : list R) (p : list Z) :
  p <> [] -> Forall (in_range (length nodes_elements)) p ->
  resolve_point (table X nodes_elements) x p
  = resolve_point_general (table X nodes_elements) x p.
Proof.
  intros Hne Hp. unfold resolve_point.
  destruct (Nat.eqb_spec (length p) 1) as [E|E]; [|reflexivity].
  destruct p as [|c [|c' p]]; try discriminate.
  unfold resolve_point_general. rewrite (distances_valid x [c] Hp). reflexivity.
Qed.

Lemma resolve_point_valid (x : list R) (p : list Z) :
  p <> [] -> Forall (in_range (length nodes_elements)) p ->
  exists l, resolve_point (table X nodes_elements) x p = Ok l
            /\ nearest X nodes_elements x p l.
Proof.
  intros Hne Hp. rewrite (resolve_point_shortcut x p Hne Hp).
  now apply resolve_point_general_valid.
Qed.

Lemma labels_loop_shortcut (xs : list (list R)) (cand : list (list Z)) :
  Forall (fun p => p <> []) cand ->
  Forall (Forall (in_range (length nodes_elements))) cand ->
  labels_loop (table X nodes_elements) xs cand
  = labels_loop_general (table X nodes_elements) xs cand.
Proof.
  revert cand; induction xs as [|x xs IH]; intros [|p cand] Hne Hr; simpl; auto.
  inversion Hne; inversion Hr; subst.
  rewrite resolve_point_shortcut by assumption.
  now rewrite IH.
Qed.

Lemma labels_loop_valid (xs : list (list R)) (cand : list (list Z)) :
  length cand = length xs ->
  Forall (fun p => p <> []) cand ->
  Forall (Forall (in_range (length nodes_elements))) cand ->
  exists labels, labels_loop (table X nodes_elements) xs cand = Ok labels
                 /\ resolved X nodes_elements xs cand labels.
Proof.
  revert cand; induction xs as [|x xs IH]; intros [|p cand] Hlen Hne Hr;
    simpl in *; try discriminate.
  - exists []. split; [reflexivity | constructor].
  - inversion Hne; inversion Hr; subst.
    destruct (resolve_point_valid x p) as (l & Hl & Hn); auto.
    destruct (IH cand) as (labels & Hls & Hres); auto.
    exists (l :: labels). rewrite Hl, Hls. split; [reflexivity | now constructor].
Qed.

Lemma resolved_length xs cand labels :
  resolved X nodes_elements xs cand labels ->
  length labels = length xs /\ length cand = length xs.
Proof. induction 1; simpl; intuition lia. Qed.

Lemma resolved_In xs cand labels :
  resolved X nodes_elements xs cand labels ->
  Forall2 (fun l p => In l p) labels cand.
Proof.
  induction 1 as [|x xs p cand l labels (j & Hj & _) _ IH]; constructor; auto.
  eapply nth_error_In; eauto.
Qed.

Lemma resolved_in_range xs cand labels :
  Forall (Forall (in_range (length nodes_elements))) cand ->
  resolved X nodes_elements xs cand labels ->
  Forall (in_range (length nodes_elements)) labels.
Proof.
  intros Hr H; induction H as [|x xs p cand l labels (j & Hj & _) _ IH];
    constructor; inversion Hr; subst; auto.
  apply nth_error_In in Hj. rewrite Forall_forall in H1. auto.
Qed.

(** The sum of squared residuals of step 3. *)
Lemma sum_sq_residuals_valid (labels : list Z) :
  rows X <> [] ->
  Forall (in_range (length nodes_elements)) labels ->
  sum_sq_residuals X (table X nodes_elements) labels
  = Ok (Fin (node_residual X nodes_elements labels)).
Proof.
  intros HX Hl. unfold sum_sq_residuals, take.
  rewrite (mapM_Ok_map _ (fun l => map Fin (centroid X nodes_elements l))).
  2:{ eapply Forall_impl; [|exact Hl]. intros c Hc. now apply table_getitem. }
  simpl.
  assert (E : concat (zipWith (fun x c => map (fun e => fmul e e) (vsub x c))
                              (rows X) (map (fun l => map Fin (centroid X nodes_elements l)) labels))
              = map Fin (concat (zipWith
                   (fun x l => zipWith (fun a b => (a - b) * (a - b)) x (centroid X nodes_elements l))
                   (rows X) labels))).
  { rewrite zipWith_map_r. generalize (rows X) as xs.
    induction labels as [|l ls IH]; intros [|x xs]; simpl; auto.
    rewrite map_app, squares_vsub_Fin. f_equal. apply IH. now inversion Hl. }
  rewrite E, fsum_Fin, Rsum_concat, map_zipWith.
  unfold node_residual, sqdist, centroid.
  destruct (table X nodes_elements); destruct (rows X); try congruence; reflexivity.
Qed.

End ValidTable.

(** ** Step 2.2: the cluster list *)

Lemma nth_error_split_at {A : Type} (l : list A) (j : nat) (c : A) :
  nth_error l j = Some c -> l = firstn j l ++ c :: skipn (S j) l.
Proof.
  revert j; induction l as [|a l IH]; intros [|j] H; simpl in *; try discriminate.
  - now inversion H.
  - f_equal. now apply IH.
Qed.

Lemma nth_replace {A : Type} (dflt : A) (l : list A) (j : nat) (c : A) (t : nat) :
  (j < length l)%nat ->
  nth t (firstn j l ++ c :: skipn (S j) l) dflt
  = if Nat.eqb t j then c else nth t l dflt.
Proof.
  revert j t; induction l as [|a l IH]; intros j t Hj; simpl in Hj; [lia|].
  destruct j as [|j]; destruct t as [|t]; simpl; auto.
  apply IH; lia.
Qed.

Lemma length_replace {A : Type} (l : list A) (j : nat) (c : A) :
  (j < length l)%nat -> length (firstn j l ++ c :: skipn (S j) l) = length l.
Proof.
  revert j; induction l as [|a l IH]; intros j Hj; simpl in Hj; [lia|].
  destruct j as [|j]; simpl; [reflexivity|].
  f_equal. apply IH; lia.
Qed.

Lemma append_at_concat (cl cl' : list (list nat)) (label : Z) (i : nat) :
  append_at cl label i = Ok cl' ->
  Permutation (concat cl') (i :: concat cl) /\ length cl' = length cl.
Proof.
  unfold append_at.
  destruct (norm_index (length cl) label) as [j|] eqn:Ej; [|discriminate].
  destruct (nth_error cl j) as [c|] eqn:Ec; [|discriminate].
  apply norm_index_lt in Ej.
  pose proof (length_replace cl j (c ++ [i]) Ej) as Hlen.
  pose proof (nth_error_split_at cl j c Ec) as E.
  revert Hlen.
  remember (firstn j cl) as F. remember (skipn (S j) cl) as K.
  intros Hlen H; inversion H; subst cl'; clear H.
  split; [|exact Hlen].
  rewrite E. rewrite !concat_app. simpl.
  rewrite <- app_assoc. simpl.
  rewrite (app_assoc (concat F) c (i :: concat K)).
  symmetry. apply Permutation_cons_app. now rewrite <- app_assoc.
Qed.

Lemma concat_repeat_nil {A : Type} (n : nat) : concat (repeat (@nil A) n) = [].
Proof. induction n; simpl; auto. Qed.

(** Whatever the labels, a run of the loop that does not raise has put each
    point in exactly one cluster. *)
Lemma clusters_loop_concat (labels : list Z) :
  forall (cl cl' : list (list nat)) (i : nat),
    clusters_loop cl i labels = Ok cl' ->
    Permutation (concat cl') (concat cl ++ seq i (length labels)).
Proof.
  induction labels as [|l labels IH]; intros cl cl' i H; simpl in H.
  - inversion H; subst. simpl. now rewrite app_nil_r.
  - apply bind_Ok in H as (cl1 & H1 & H2).
    apply append_at_concat in H1 as [Hp _].
    apply IH in H2. rewrite H2. simpl.
    rewrite Hp. simpl.
    assert (Ec : forall b : bool,
               concat (if b then cl ++ repeat [] (Z.to_nat (l + 1 - Z.of_nat (length cl)))
                       else cl) = concat cl).
    { intros [|]; [|reflexivity].
      now rewrite concat_app, concat_repeat_nil, app_nil_r. }
    rewrite Ec. apply Permutation_middle.
Qed.

Lemma filter_nonempty_concat {A : Type} (cl : list (list A)) :
  concat (filter nonempty cl) = concat cl.
Proof.
  induction cl as [|c cl IH]; simpl; [reflexivity|].
  destruct c; simpl; now rewrite IH.
Qed.

Lemma filter_nonempty_Forall {A : Type} (cl : list (list A)) :
  Forall (fun c => c <> []) (filter nonempty cl).
Proof.
  apply Forall_forall. intros c Hc. apply filter_In in Hc as [_ Hc].
  destruct c; [discriminate | congruence].
Qed.

Lemma build_clusters_concat (labels : list Z) (clusters : list (list nat)) :
  build_clusters labels = Ok clusters ->
  Permutation (concat clusters) (seq 0 (length labels))
  /\ Forall (fun c => c <> []) clusters.
Proof.
  unfold build_clusters. intros H. apply bind_Ok in H as (cl & H1 & H2).
  inversion H2; subst. split; [|apply filter_nonempty_Forall].
  rewrite filter_nonempty_concat. now apply clusters_loop_concat in H1.
Qed.

Lemma length_concat_le {A : Type} (cl : list (list A)) :
  Forall (fun c => c <> []) cl -> (length cl <= length (concat cl))%nat.
Proof.
  induction 1 as [|c cl Hc _ IH]; simpl; [lia|].
  rewrite length_app. destruct c; [congruence | simpl; lia].
Qed.

Lemma length_concat_sum {A : Type} (cl : list (list A)) :
  length (concat cl) = list_sum (map (@length A) cl).
Proof.
  induction cl as [|c cl IH]; simpl; [reflexivity|].
  now rewrite length_app, IH.
Qed.

(** *** Clusters as the member sets of the labels *)

Lemma members_from_app (s : nat) (v : Z) (a b : list Z) :
  members_from s v (a ++ b)
  = members_from s v a ++ members_from (s + length a) v b.
Proof.
  revert s; induction a as [|l a IH]; intros s; simpl.
  - now rewrite Nat.add_0_r.
  - rewrite IH. replace (S s + length a)%nat with (s + S (length a))%nat by lia.
    destruct (Z.eqb l v); reflexivity.
Qed.

Lemma members_from_In (s : nat) (v : Z) (labels : list Z) (i : nat) :
  In i (members_from s v labels)
  <-> exists t, i = (s + t)%nat /\ nth_error labels t = Some v.
Proof.
  revert s; induction labels as [|l labels IH]; intros s; simpl.
  - split; [tauto | intros (t & _ & H); destruct t; discriminate].
  - destruct (Z.eqb_spec l v) as [->|Hne]; simpl; rewrite ?IH.
    + split.
      * intros [<-|(t & -> & Ht)]; [exists 0%nat | exists (S t)];
          split; auto; lia.
      * intros ([|t] & -> & Ht); [left; lia|right].
        exists t; split; [lia | exact Ht].
    + split.
      * intros (t & -> & Ht). exists (S t); split; [lia | exact Ht].
      * intros ([|t] & -> & Ht); simpl in Ht; [congruence|].
        exists t; split; [lia | exact Ht].
Qed.

Lemma members_nil_iff (v : Z) (labels : list Z) :
  members v labels = [] <-> ~ In v labels.
Proof.
  unfold members. split.
  - intros E Hin. apply In_nth_error in Hin as (t & Ht).
    assert (H : In (0 + t)%nat (members_from 0 v labels))
      by (apply members_from_In; eauto).
    rewrite E in H. exact H.
  - intros Hn. destruct (members_from 0 v labels) as [|i m] eqn:E; [reflexivity|].
    exfalso. apply Hn.
    assert (H : In i (members_from 0 v labels)) by (rewrite E; now left).
    apply members_from_In in H as (t & _ & Ht). eapply nth_error_In; eauto.
Qed.


Lemma clusters_loop_slots (labels : list Z) :
  forall (pre : list Z) (cl : list (list nat)),
    Forall (fun l => (0 <= l)%Z) labels ->
    slots_of pre cl ->
    exists cl', clusters_loop cl (length pre) labels = Ok cl'
                /\ slots_of (pre ++ labels) cl'.
Proof.
  induction labels as [|l labels IH]; intros pre cl Hpos [Hs Hr].
  - exists cl. rewrite app_nil_r. split; [reflexivity | split; assumption].
  - inversion Hpos as [|? ? Hl Hpos']; subst. simpl.
    set (cl1 := if (0 <? l + 1 - Z.of_nat (length cl))%Z
                then cl ++ repeat [] (Z.to_nat (l + 1 - Z.of_nat (length cl)))
                else cl).
    assert (Hlen1 : (length cl <= length cl1)%nat /\ (l < Z.of_nat (length cl1))%Z).
    { unfold cl1. destruct (Z.ltb_spec 0 (l + 1 - Z.of_nat (length cl))).
      - rewrite length_app, repeat_length. lia.
      - lia. }
    assert (Hs1 : forall j, (j < length cl1)%nat ->
                            nth j cl1 [] = members (Z.of_nat j) pre).
    { intros j Hj. destruct (Nat.lt_ge_cases j (length cl)) as [Hlt|Hge].
      - rewrite <- (Hs j Hlt). unfold cl1.
        destruct (0 <? l + 1 - Z.of_nat (length cl))%Z; [|reflexivity].
        now rewrite app_nth1.
      - transitivity (@nil nat).
        + unfold cl1. destruct (0 <? l + 1 - Z.of_nat (length cl))%Z.
          * rewrite app_nth2 by lia. apply nth_repeat.
          * apply nth_overflow; lia.
        + symmetry. apply members_nil_iff. intros Hin.
          rewrite Forall_forall in Hr. specialize (Hr _ Hin).
          unfold in_range in Hr. lia. }
    unfold append_at.
    rewrite norm_index_in_range by (unfold in_range; lia).
    assert (Hj : (Z.to_nat l < length cl1)%nat) by lia.
    destruct (nth_error cl1 (Z.to_nat l)) as [c|] eqn:Ec;
      [|apply nth_error_None in Ec; lia].
    cbn [bind].
    replace (S (length pre)) with (length (pre ++ [l]))
      by (rewrite length_app; simpl; lia).
    replace (pre ++ l :: labels) with ((pre ++ [l]) ++ labels)
      by (now rewrite <- app_assoc).
    apply IH; [assumption|]. split.
    + intros j. rewrite length_replace by assumption. intros Hjl.
      rewrite nth_replace by assumption.
      unfold members. rewrite members_from_app. simpl.
      fold (members (Z.of_nat j) pre).
      destruct (Nat.eqb_spec j (Z.to_nat l)) as [->|Hne].
      * rewrite Z2Nat.id by lia. rewrite Z.eqb_refl.
        f_equal. apply (nth_error_nth _ _ []) in Ec. rewrite <- Ec.
        rewrite Hs1 by assumption. now rewrite Z2Nat.id by lia.
      * destruct (Z.eqb_spec l (Z.of_nat j)) as [E|E]; [subst; lia|].
        rewrite app_nil_r. now apply Hs1.
    + rewrite length_replace by assumption.
      apply Forall_app; split.
      * eapply Forall_impl; [|exact Hr]. unfold in_range; intros; lia.
      * constructor; [unfold in_range; lia | constructor].
Qed.

(** For non-negative labels the cluster list is, in increasing label order,
    the list of the non-empty member sets. *)
Lemma build_clusters_members (labels : list Z) :
  Forall (fun l => (0 <= l)%Z) labels ->
  exists n, Forall (in_range n) labels
            /\ build_clusters labels
               = Ok (filter nonempty
                       (map (fun j => members (Z.of_nat j) labels) (seq 0 n))).
Proof.
  intros Hpos.
  destruct (clusters_loop_slots labels [] [] Hpos) as (cl & Hcl & Hs & Hr).
  { split; [simpl; intros; lia | constructor]. }
  simpl in *. exists (length cl). split; [exact Hr|].
  unfold build_clusters. rewrite Hcl. simpl. do 2 f_equal.
  apply (nth_ext _ _ [] (members 0 labels)).
  - now rewrite length_map, length_seq.
  - intros j Hj. rewrite Hs by assumption.
    rewrite (map_nth (fun j => members (Z.of_nat j) labels) (seq 0 (length cl)) 0%nat).
    now rewrite seq_nth.
Qed.

(** ** Step 3: the arithmetic of the score *)

Lemma sizes_term_Fin (sizes : list Z) :
  Forall (fun s => (1 <= s)%Z) sizes ->
  fsum (map (fun s => fmul (of_int s) (flog (of_int s))) sizes)
  = Fin (Rsum (map (fun s => IZR s * ln (IZR s)) sizes)).
Proof.
  intros H. rewrite <- fsum_Fin, map_map. f_equal.
  apply map_ext_in. intros s Hs. rewrite Forall_forall in H.
  apply H in Hs. unfold of_int. rewrite flog_pos; [reflexivity|].
  apply IZR_lt. lia.
Qed.

Lemma sizes_nonempty (cl : list (list nat)) :
  Forall (fun c => c <> []) cl ->
  Forall (fun s => (1 <= s)%Z) (map (fun c => Z.of_nat (length c)) cl).
Proof.
  intros H. apply Forall_map. eapply Forall_impl; [|exact H].
  intros [|a c] Hc; [congruence | simpl; lia].
Qed.

Lemma sigma_sq_of_lt (N d k : Z) (S : R) :
  (1 <= d)%Z -> (k < N)%Z ->
  sigma_sq_of N d k (Fin S) = Fin (S / (IZR d * (IZR N - IZR k))).
Proof.
  intros Hd Hk. unfold sigma_sq_of, of_int. simpl.
  rewrite mult_IZR, minus_IZR.
  assert (0 < IZR d) by (apply IZR_lt; lia).
  assert (IZR k < IZR N) by (apply IZR_lt; lia).
  destruct (Req_dec_T (IZR d * (IZR N - IZR k)) 0) as [E|E]; [nra | reflexivity].
Qed.

Lemma sigma_sq_of_eq (N d : Z) (S : R) :
  sigma_sq_of N d N (Fin S) = signed_inf (Rsign S).
Proof.
  unfold sigma_sq_of, of_int. simpl.
  replace (d * (N - N))%Z with 0%Z by lia.
  destruct (Req_dec_T 0 0); [reflexivity | congruence].
Qed.

Section ScoreArithmetic.

Variables N d k : Z.
Variable sizes : list Z.
Hypothesis HN : (1 <= N)%Z.
Hypothesis Hd : (1 <= d)%Z.
Hypothesis Hsizes : Forall (fun s => (1 <= s)%Z) sizes.

Let HNR : 0 < IZR N.
Proof. apply IZR_lt; lia. Qed.

Let HdR : 0 < IZR d.
Proof. apply IZR_lt; lia. Qed.

Lemma aic_of_finite (s : R) :
  0 < s -> aic_of N d k sizes (Fin s) = Fin (aic_value N d k sizes s).
Proof.
  intros Hs. unfold aic_of. rewrite (sizes_term_Fin sizes Hsizes).
  unfold of_int. rewrite (flog_pos (IZR N) HNR). cbn [fmul].
  assert (0 < 2 * PI * s) by (pose proof PI_RGT_0; nra).
  rewrite (flog_pos (2 * PI * s)) by assumption.
  cbn [fmul fsub fadd fneg]. f_equal. unfold aic_value.
  rewrite !mult_IZR, minus_IZR, plus_IZR. ring.
Qed.

Lemma aic_of_zero : aic_of N d k sizes (Fin 0) = PInf.
Proof.
  unfold aic_of. rewrite (sizes_term_Fin sizes Hsizes).
  unfold of_int. rewrite (flog_pos (IZR N) HNR). cbn [fmul].
  rewrite Rmult_0_r, flog_zero. cbn [fmul].
  assert (HS : Rsign (IZR (N * d)) = Gt).
  { unfold Rsign. rewrite mult_IZR.
    destruct (Rlt_dec (IZR N * IZR d) 0); [nra|].
    destruct (Rlt_dec 0 (IZR N * IZR d)); [reflexivity | nra]. }
  rewrite HS. reflexivity.
Qed.

Lemma aic_of_PInf : aic_of N d k sizes PInf = NInf.
Proof.
  unfold aic_of. rewrite (sizes_term_Fin sizes Hsizes).
  unfold of_int. rewrite (flog_pos (IZR N) HNR). cbn [fmul].
  assert (HS2 : Rsign (2 * PI) = Gt).
  { unfold Rsign. pose proof PI_RGT_0.
    destruct (Rlt_dec (2 * PI) 0); [lra|].
    destruct (Rlt_dec 0 (2 * PI)); [reflexivity | lra]. }
  rewrite HS2. cbn [signed_inf flog fmul].
  assert (HS : Rsign (IZR (N * d)) = Gt).
  { unfold Rsign. rewrite mult_IZR.
    destruct (Rlt_dec (IZR N * IZR d) 0); [nra|].
    destruct (Rlt_dec 0 (IZR N * IZR d)); [reflexivity | nra]. }
  rewrite HS. reflexivity.
Qed.

Lemma aic_of_NaN : aic_of N d k sizes NaN = NaN.
Proof.
  unfold aic_of. rewrite (sizes_term_Fin sizes Hsizes).
  unfold of_int. rewrite (flog_pos (IZR N) HNR). reflexivity.
Qed.

End ScoreArithmetic.

(** ** A whole run on a well-indexed input *)

Lemma in_range_nonneg (n : nat) (labels : list Z) :
  Forall (in_range n) labels -> Forall (fun l => (0 <= l)%Z) labels.
Proof. apply Forall_impl. unfold in_range; intros; lia. Qed.

Lemma well_indexed_run X nodes_elements cand :
  well_indexed X nodes_elements cand ->
  exists labels cl,
    centroids_of X nodes_elements = Ok (table X nodes_elements)
    /\ hard_labels X nodes_elements cand = Ok labels
    /\ resolved X nodes_elements (rows X) cand labels
    /\ Forall (in_range (length nodes_elements)) labels
    /\ build_clusters labels = Ok cl
    /\ compute_aic_locals X nodes_elements cand
       = Ok (locals_of X nodes_elements labels cl).
Proof.
  intros [Hwf HN Hlen Hne Hr Hnodes].
  pose proof (centroids_of_valid X nodes_elements Hnodes) as HC.
  destruct (labels_loop_valid X nodes_elements (rows X) cand Hlen Hne Hr)
    as (labels & Hl & Hres).
  pose proof (resolved_in_range _ _ _ _ _ Hr Hres) as Hlr.
  destruct (build_clusters_members labels (in_range_nonneg _ _ Hlr))
    as (n & _ & Hcl).
  exists labels. eexists. split; [exact HC|].
  split; [unfold hard_labels; now rewrite HC|].
  split; [exact Hres|]. split; [exact Hlr|]. split; [exact Hcl|].
  unfold compute_aic_locals. rewrite HC. cbn [bind]. rewrite Hl. cbn [bind].
  unfold score_locals. rewrite Hcl. cbn [bind].
  rewrite (sum_sq_residuals_valid X nodes_elements labels); [reflexivity| |exact Hlr].
  unfold npoints in HN. destruct (rows X); [simpl in HN; lia | discriminate].
Qed.

(** The number of clusters lies between 1 and the number of points. *)
Lemma clusters_count (labels : list Z) (cl : list (list nat)) :
  build_clusters labels = Ok cl ->
  (length cl <= length labels)%nat /\ (labels <> [] -> 1 <= length cl)%nat.
Proof.
  intros H. apply build_clusters_concat in H as [Hp Hne].
  pose proof (Permutation_length Hp) as Hlen. rewrite length_seq in Hlen.
  split.
  - rewrite <- Hlen. now apply length_concat_le.
  - intros Hl. destruct cl; [|simpl; lia].
    simpl in Hlen. destruct labels; [congruence | discriminate].
Qed.

(** ** The Resolver *)

Lemma Forall2_nth_error {A B : Type} (P : A -> B -> Prop) (l : list A) (m : list B) :
  Forall2 P l m ->
  forall i a, nth_error l i = Some a -> exists b, nth_error m i = Some b /\ P a b.
Proof.
  induction 1 as [|a' b' l m Hab _ IH]; intros [|i] a Hi; simpl in *;
    try discriminate.
  - inversion Hi; subst. eauto.
  - eauto.
Qed.

(** C6: On every valid input the Resolver returns one label per point, and
    the label of point [i] is one of the identifiers of the candidate list of
    point [i]. *)
Theorem resolver_label_is_candidate X nodes_elements cand :
  valid_input X nodes_elements cand ->
  exists labels,
    hard_labels X nodes_elements cand = Ok labels
    /\ length labels = npoints X
    /\ forall i l, nth_error labels i = Some l ->
         exists p, nth_error cand i = Some p /\ In l p.
Proof.
  intros [Hwi _].
  destruct (well_indexed_run _ _ _ Hwi) as (labels & cl & _ & Hl & Hres & _).
  exists labels. split; [exact Hl|]. split.
  - now apply resolved_length in Hres.
  - intros i l Hi. apply resolved_In in Hres.
    apply (Forall2_nth_error _ _ _ Hres i l Hi).
Qed.

Lemma resolver_label_is_candidate_witness :
  valid_input X_line nodes_overlap cells_overlap
  /\ exists labels,
       hard_labels X_line nodes_overlap cells_overlap = Ok labels
       /\ length labels = npoints X_line
       /\ forall i l, nth_error labels i = Some l ->
            exists p, nth_error cells_overlap i = Some p /\ In l p.
Proof.
  split; [solve_valid|].
  apply (resolver_label_is_candidate X_line nodes_overlap cells_overlap).
  solve_valid.
Defined.

Lemma resolve_point_single (centroids : list (list float64)) (x : list R) (c : Z) :
  resolve_point centroids x [c] = Ok c.
Proof. reflexivity. Qed.



Lemma singletons_labels (labels : list Z) (cand : list (list Z)) :
  Forall2 (fun l p => In l p) labels cand ->
  Forall (fun p => length p = 1%nat) cand ->
  labels = map (hd 0%Z) cand.
Proof.
  induction 1 as [|l p labels cand Hin _ IH]; intros Hs; [reflexivity|].
  inversion Hs as [|? ? Hp Hs']; subst. simpl. f_equal; [|now apply IH].
  destruct p as [|c [|c' p]]; try discriminate.
  destruct Hin as [<-|[]]. reflexivity.
Qed.

(** C7: On every valid input the Resolver with its single-candidate
    shortcut returns the labels that the general rule (nearest centroid,
    first position on ties, applied to every point) returns; and when every
    point has exactly one candidate, the labels are those sole candidates. *)
Theorem single_candidate_shortcut X nodes_elements cand :
  valid_input X nodes_elements cand ->
  exists labels,
    hard_labels X nodes_elements cand = Ok labels
    /\ hard_labels_general X nodes_elements cand = Ok labels
    /\ (Forall (fun p => length p = 1%nat) cand -> labels = map (hd 0%Z) cand).
Proof.
  intros [Hwi _].
  destruct (well_indexed_run _ _ _ Hwi) as (labels & cl & HC & Hl & Hres & _).
  exists labels. split; [exact Hl|]. split.
  - destruct Hwi as [_ _ _ Hne Hr _].
    unfold hard_labels_general. unfold hard_labels in Hl.
    rewrite HC in *. cbn [bind] in *.
    now rewrite <- labels_loop_shortcut.
  - apply singletons_labels. now apply resolved_In in Hres.
Qed.

Lemma single_candidate_shortcut_witness :
  valid_input X_far nodes_pairs cells_pairs
  /\ hard_labels X_far nodes_pairs cells_pairs = Ok [0; 0; 1; 1]%Z
  /\ hard_labels_general X_far nodes_pairs cells_pairs = Ok [0; 0; 1; 1]%Z.
Proof.
  split; [solve_valid|].
  destruct (single_candidate_shortcut X_far nodes_pairs cells_pairs)
    as (labels & Hl & Hg & Hs); [solve_valid|].
  rewrite Hl, Hg, Hs by (repeat constructor). split; reflexivity.
Defined.

(** ** The cluster list *)

Lemma NoDup_app_In {A : Type} (l m : list A) (x : A) :
  NoDup (l ++ m) -> In x l -> In x m -> False.
Proof.
  induction l as [|a l IH]; simpl; intros Hnd Hl Hm; [exact Hl|].
  inversion Hnd as [|? ? Hna Hnd']; subst.
  destruct Hl as [->|Hl]; [|now apply IH].
  apply Hna. apply in_or_app. now right.
Qed.

Lemma NoDup_concat_disjoint {A : Type} (cl : list (list A)) :
  NoDup (concat cl) ->
  forall a b ca cb i,
    a <> b -> nth_error cl a = Some ca -> nth_error cl b = Some cb ->
    In i ca -> ~ In i cb.
Proof.
  induction cl as [|c cl IH]; simpl; intros Hnd a b ca cb i Hab Ha Hb Hia Hib.
  - destruct a; discriminate.
  - destruct a as [|a]; destruct b as [|b]; simpl in *; try congruence.
    + inversion Ha; subst. apply (NoDup_app_In _ _ i Hnd Hia).
      apply in_concat. exists cb. split; [eapply nth_error_In; eauto | exact Hib].
    + inversion Hb; subst. apply (NoDup_app_In _ _ i Hnd Hib).
      apply in_concat. exists ca. split; [eapply nth_error_In; eauto | exact Hia].
    + apply NoDup_app_remove_l in Hnd.
      apply (IH Hnd a b ca cb i); auto.
Qed.

(** C10: On every valid input the cluster list built by [compute_aic] is a
    partition of the point indices [0 .. N-1]: every index lies in exactly one
    cluster, two distinct clusters share no index, every retained cluster is
    non-empty, the sizes sum to [N], and [1 <= k <= N]. *)
Theorem cluster_list_is_partition X nodes_elements cand :
  valid_input X nodes_elements cand ->
  exists t,
    compute_aic_locals X nodes_elements cand = Ok t
    /\ Permutation (concat (clusters t)) (seq 0 (npoints X))
    /\ (forall a b ca cb i,
          a <> b ->
          nth_error (clusters t) a = Some ca ->
          nth_error (clusters t) b = Some cb ->
          In i ca -> ~ In i cb)
    /\ Forall (fun c => c <> []) (clusters t)
    /\ cluster_sizes t = map (fun c => Z.of_nat (length c)) (clusters t)
    /\ list_sum (map (@length nat) (clusters t)) = npoints X
    /\ (1 <= length (clusters t) <= npoints X)%nat.
Proof.
  intros [Hwi _].
  destruct (well_indexed_run _ _ _ Hwi) as (labels & cl & _ & _ & Hres & _ & Hcl & Hrun).
  exists (locals_of X nodes_elements labels cl). split; [exact Hrun|].
  cbn [locals_of clusters cluster_sizes].
  apply resolved_length in Hres as [Hlen _]. unfold npoints. rewrite <- Hlen.
  pose proof (build_clusters_concat _ _ Hcl) as [Hp Hne].
  pose proof (clusters_count _ _ Hcl) as [Hle Hge].
  split; [exact Hp|]. split; [|split; [exact Hne|split; [reflexivity|split]]].
  - apply NoDup_concat_disjoint.
    apply (Permutation_NoDup (Permutation_sym Hp)). apply seq_NoDup.
  - rewrite <- length_concat_sum, (Permutation_length Hp). apply length_seq.
  - split; [|exact Hle]. apply Hge.
    destruct Hwi as [_ HN _ _ _ _]. unfold npoints in HN. rewrite <- Hlen in HN.
    destruct labels; [simpl in HN; lia | discriminate].
Qed.

Lemma cluster_list_is_partition_witness :
  valid_input X_far nodes_pairs cells_pairs
  /\ exists t,
       compute_aic_locals X_far nodes_pairs cells_pairs = Ok t
       /\ Permutation (concat (clusters t)) (seq 0 (npoints X_far))
       /\ (1 <= length (clusters t) <= npoints X_far)%nat.
Proof.
  split; [solve_valid|].
  destruct (cluster_list_is_partition X_far nodes_pairs cells_pairs)
    as (t & Ht & Hp & _ & _ & _ & _ & Hk); [solve_valid|].
  exists t. auto.
Defined.

(** ** The Scorer *)

Lemma node_residual_nonneg X nodes_elements labels :
  0 <= node_residual X nodes_elements labels.
Proof.
  unfold node_residual. apply Rsum_nonneg.
  generalize (rows X) as xs. intros xs; revert labels.
  induction xs as [|x xs IH]; intros [|l labels]; simpl; constructor; auto.
  apply sqdist_nonneg.
Qed.

Lemma run_with X nodes_elements cand labels cl :
  well_indexed X nodes_elements cand ->
  hard_labels X nodes_elements cand = Ok labels ->
  build_clusters labels = Ok cl ->
  compute_aic_locals X nodes_elements cand
  = Ok (locals_of X nodes_elements labels cl).
Proof.
  intros Hwi Hl Hcl.
  destruct (well_indexed_run _ _ _ Hwi) as (labels' & cl' & _ & Hl' & _ & _ & Hcl' & Hrun).
  rewrite Hl in Hl'. inversion Hl'; subst labels'.
  rewrite Hcl in Hcl'. inversion Hcl'; subst cl'. exact Hrun.
Qed.

(** The four outcomes of step 3, by the number of clusters and the sum [S]
    of squared residuals. *)
Lemma locals_cases X nodes_elements labels cl :
  (1 <= npoints X)%nat -> (1 <= ncols X)%nat ->
  Forall (fun c => c <> []) cl ->
  let t := locals_of X nodes_elements labels cl in
  let N := Z.of_nat (npoints X) in
  let d := Z.of_nat (ncols X) in
  let k := Z.of_nat (length cl) in
  let S := node_residual X nodes_elements labels in
  ((k < N)%Z -> 0 < S ->
     sigma_sq t = Fin (S / (IZR d * (IZR N - IZR k)))
     /\ aic t = Fin (aic_value N d k (cluster_sizes t) (S / (IZR d * (IZR N - IZR k)))))
  /\ ((k < N)%Z -> S = 0 -> sigma_sq t = Fin 0 /\ aic t = PInf)
  /\ (k = N -> 0 < S -> sigma_sq t = PInf /\ aic t = NInf)
  /\ (k = N -> S = 0 -> sigma_sq t = NaN /\ aic t = NaN).
Proof.
  intros HN Hd Hne t N d k S.
  assert (HNz : (1 <= N)%Z) by (unfold N; lia).
  assert (Hdz : (1 <= d)%Z) by (unfold d; lia).
  pose proof (sizes_nonempty cl Hne) as Hs.
  unfold t, locals_of. cbn [sigma_sq aic cluster_sizes].
  fold N d k S. repeat split.
  - now apply sigma_sq_of_lt.
  - rewrite sigma_sq_of_lt by assumption. apply aic_of_finite; try assumption.
    assert (0 < IZR d) by (apply IZR_lt; lia).
    assert (IZR k < IZR N) by (apply IZR_lt; lia).
    apply Rdiv_lt_0_compat; nra.
  - rewrite sigma_sq_of_lt by assumption. rewrite H0. f_equal. unfold Rdiv. ring.
  - rewrite sigma_sq_of_lt by assumption. rewrite H0.
    replace (0 / (IZR d * (IZR N - IZR k))) with 0 by (unfold Rdiv; ring).
    now apply aic_of_zero.
  - rewrite H, sigma_sq_of_eq. unfold Rsign.
    destruct (Rlt_dec S 0); [lra|]. destruct (Rlt_dec 0 S); [reflexivity | lra].
  - rewrite H, sigma_sq_of_eq. unfold Rsign.
    destruct (Rlt_dec S 0); [lra|]. destruct (Rlt_dec 0 S); [|lra].
    cbn [signed_inf]. now apply aic_of_PInf.
  - rewrite H, sigma_sq_of_eq, H0. unfold Rsign.
    destruct (Rlt_dec 0 0); [lra | reflexivity].
  - rewrite H, sigma_sq_of_eq, H0. unfold Rsign.
    destruct (Rlt_dec 0 0); [lra|]. cbn [signed_inf]. now apply aic_of_NaN.
Qed.

Lemma compute_aic_of_locals X nodes_elements cand t :
  compute_aic_locals X nodes_elements cand = Ok t ->
  compute_aic X nodes_elements cand = Ok (aic t).
Proof. intros H. unfold compute_aic. now rewrite H. Qed.




Lemma labels_far :
  hard_labels X_far nodes_pairs cells_pairs = Ok [0; 0; 1; 1]%Z.
Proof.
  unfold hard_labels. rewrite centroids_of_valid by solve_valid. reflexivity.
Qed.

Lemma labels_coincident :
  hard_labels X_coincident nodes_pairs cells_pairs = Ok [0; 0; 1; 1]%Z.
Proof.
  unfold hard_labels. rewrite centroids_of_valid by solve_valid. reflexivity.
Qed.

Lemma residual_far : node_residual X_far nodes_pairs [0; 0; 1; 1]%Z = 1.
Proof.
  unfold node_residual, sqdist, node_centroid, vsum, Rsum, at_. simpl. lra.
Qed.

Lemma residual_coincident :
  node_residual X_coincident nodes_pairs [0; 0; 1; 1]%Z = 0.
Proof.
  unfold node_residual, sqdist, node_centroid, vsum, Rsum, at_. simpl. lra.
Qed.

Lemma locals_far :
  compute_aic_locals X_far nodes_pairs cells_pairs
  = Ok (mk_locals [0; 0; 1; 1]%Z [[0; 1]; [2; 3]]%nat [2; 2]%Z (Fin (1 / 2))
                  (Fin (aic_value 4 1 2 [2; 2]%Z (1 / 2)))).
Proof.
  rewrite (run_with _ _ _ [0; 0; 1; 1]%Z [[0; 1]; [2; 3]]%nat);
    [|solve_valid | exact labels_far | reflexivity].
  unfold locals_of.
  change (Z.of_nat (npoints X_far)) with 4%Z.
  change (Z.of_nat (ncols X_far)) with 1%Z.
  change (Z.of_nat (length [[0; 1]; [2; 3]]%nat)) with 2%Z.
  change (map (fun c => Z.of_nat (length c)) [[0; 1]; [2; 3]]%nat) with [2; 2]%Z.
  rewrite sigma_sq_of_lt, residual_far by lia.
  replace (1 / (1 * (4 - 2))) with (1 / 2) by lra.
  rewrite aic_of_finite;
    first [reflexivity | lia | lra | repeat (constructor; try lia)].
Qed.




Lemma labels_two :
  hard_labels X_two nodes_singletons cells_singletons = Ok [0; 1]%Z.
Proof.
  unfold hard_labels. rewrite centroids_of_valid by solve_valid. reflexivity.
Qed.

(** The claim C3 as worded fails on scenario 1 ([N = 4], [k = 2],
    [sigma_sq = 0]): no error is raised, the score returned is [+inf]; and on
    two points in two clusters ([N - k = 0]) the score returned is NaN. *)
Lemma degenerate_clustering_counterexample :
  valid_input X_coincident nodes_pairs cells_pairs
  /\ compute_aic_locals X_coincident nodes_pairs cells_pairs
     = Ok (mk_locals [0; 0; 1; 1]%Z [[0; 1]; [2; 3]]%nat [2; 2]%Z (Fin 0) PInf)
  /\ compute_aic X_coincident nodes_pairs cells_pairs = Ok PInf
  /\ valid_input X_two nodes_singletons cells_singletons
  /\ compute_aic_locals X_two nodes_singletons cells_singletons
     = Ok (mk_locals [0; 1]%Z [[0]; [1]]%nat [1; 1]%Z NaN NaN)
  /\ compute_aic X_two nodes_singletons cells_singletons = Ok NaN.
Proof.
  assert (H1 : compute_aic_locals X_coincident nodes_pairs cells_pairs
               = Ok (mk_locals [0; 0; 1; 1]%Z [[0; 1]; [2; 3]]%nat [2; 2]%Z
                               (Fin 0) PInf)).
  { rewrite (run_with _ _ _ [0; 0; 1; 1]%Z [[0; 1]; [2; 3]]%nat);
      [|solve_valid | exact labels_coincident | reflexivity].
    destruct (locals_cases X_coincident nodes_pairs [0; 0; 1; 1]%Z
                           [[0; 1]; [2; 3]]%nat)
      as (_ & Hzero & _); [solve_valid | solve_valid | repeat constructor; discriminate |].
    destruct Hzero as [Hs Ha];
      [unfold npoints; simpl; lia | exact residual_coincident |].
    f_equal. unfold locals_of in *. cbn [sigma_sq aic] in Hs, Ha.
    rewrite Ha, Hs. reflexivity. }
  assert (H2 : compute_aic_locals X_two nodes_singletons cells_singletons
               = Ok (mk_locals [0; 1]%Z [[0]; [1]]%nat [1; 1]%Z NaN NaN)).
  { rewrite (run_with _ _ _ [0; 1]%Z [[0]; [1]]%nat);
      [|solve_valid | exact labels_two | reflexivity].
    destruct (locals_cases X_two nodes_singletons [0; 1]%Z [[0]; [1]]%nat)
      as (_ & _ & _ & Hnan); [solve_valid | solve_valid | repeat constructor; discriminate |].
    destruct Hnan as [Hs Ha]; [reflexivity | |].
    { unfold node_residual, sqdist, node_centroid, vsum, Rsum, at_. simpl. lra. }
    f_equal. unfold locals_of in *. cbn [sigma_sq aic] in Hs, Ha.
    rewrite Ha, Hs. reflexivity. }
  split; [solve_valid|]. split; [exact H1|].
  split; [exact (compute_aic_of_locals _ _ _ _ H1)|].
  split; [solve_valid|]. split; [exact H2|].
  exact (compute_aic_of_locals _ _ _ _ H2).
Qed.

(** ** Malformed inputs *)

Lemma raises_bind {A B : Type} (m : result A) (f : A -> result B) :
  raises m -> raises (bind m f).
Proof. intros [e ->]. now exists e. Qed.

Lemma compute_aic_raises_of_labels X nodes_elements cand :
  (forall C, centroids_of X nodes_elements = Ok C ->
             raises (labels_loop C (rows X) cand)) ->
  raises (compute_aic X nodes_elements cand).
Proof.
  intros H. unfold compute_aic, compute_aic_locals. apply raises_bind.
  destruct (centroids_of X nodes_elements) as [C|e]; [|now exists e].
  cbn [bind]. apply raises_bind. now apply H.
Qed.

Lemma labels_loop_short C (xs : list (list R)) (cand : list (list Z)) :
  (length cand < length xs)%nat -> raises (labels_loop C xs cand).
Proof.
  revert cand; induction xs as [|x xs IH]; intros [|p cand] Hlen; simpl in *;
    try lia.
  - now exists IndexError.
  - destruct (resolve_point C x p) as [l|e]; [|now exists e]. cbn [bind].
    apply raises_bind. apply IH. lia.
Qed.

Lemma labels_loop_empty_candidate C (xs : list (list R)) (cand : list (list Z)) i :
  (i < length xs)%nat -> nth_error cand i = Some [] ->
  raises (labels_loop C xs cand).
Proof.
  revert cand i; induction xs as [|x xs IH]; intros [|p cand] [|i] Hi Hp;
    simpl in *; try lia; try discriminate.
  - inversion Hp; subst. now exists ValueError.
  - destruct (resolve_point C x p) as [l|e]; [|now exists e]. cbn [bind].
    apply raises_bind. apply (IH cand i); [lia | exact Hp].
Qed.

Lemma labels_loop_firstn C (xs : list (list R)) (cand : list (list Z)) :
  labels_loop C xs cand = labels_loop C xs (firstn (length xs) cand).
Proof.
  revert cand; induction xs as [|x xs IH]; intros [|p cand]; simpl; auto.
  now rewrite <- IH.
Qed.

Lemma aic_of_no_point (d k : Z) (sizes : list Z) (s : float64) :
  aic_of 0 d k sizes s = NaN.
Proof.
  unfold aic_of, of_int. change (2 * 0)%Z with 0%Z. rewrite flog_zero.
  cbn [fmul]. unfold Rsign. destruct (Rlt_dec 0 0); [lra|]. cbn [CompOpp signed_inf].
  assert (E : forall x, fsub x NaN = NaN) by (intros [a| | |]; reflexivity).
  rewrite E. reflexivity.
Qed.

Lemma vsum_no_column (rs : list (list R)) : vsum 0 rs = [].
Proof.
  unfold vsum. simpl. induction rs as [|r rs IH]; simpl; auto.
Qed.

Lemma zipWith_nil_r {A B C : Type} (f : A -> B -> C) (l : list A) :
  zipWith f l [] = [].
Proof. destruct l; reflexivity. Qed.

Lemma Rsum_zipWith_zero {A B : Type} (f : A -> B -> R) (l : list A) (m : list B) :
  (forall a b, f a b = 0) -> Rsum (zipWith f l m) = 0.
Proof.
  intros Hf. revert m; induction l as [|a l IH]; intros [|b m]; simpl;
    try reflexivity.
  rewrite Rsum_cons, IH, Hf. lra.
Qed.

Lemma node_residual_no_column X nodes_elements labels :
  ncols X = 0%nat -> node_residual X nodes_elements labels = 0.
Proof.
  intros Hd. unfold node_residual. apply Rsum_zipWith_zero.
  intros x l. unfold sqdist, node_centroid.
  rewrite Hd, vsum_no_column. simpl. now rewrite zipWith_nil_r.
Qed.

Lemma compute_aic_no_point X nodes_elements cand :
  npoints X = 0%nat ->
  Forall (fun el => el = []) nodes_elements ->
  (nodes_elements <> [] \/ (ncols X <= 1)%nat) ->
  compute_aic X nodes_elements cand = Ok NaN.
Proof.
  intros HN Hnodes Hshape.
  apply length_zero_iff_nil in HN.
  assert (HC : centroids_of X nodes_elements
               = Ok (map (fun _ => mean_axis0 (ncols X) []) nodes_elements)).
  { unfold centroids_of. apply mapM_Ok_map.
    eapply Forall_impl; [|exact Hnodes]. intros el ->. reflexivity. }
  unfold compute_aic, compute_aic_locals. rewrite HC. cbn [bind].
  rewrite HN. cbn [labels_loop bind]. unfold score_locals. rewrite HN.
  change (build_clusters []) with (@Ok (list (list nat)) []). cbn [bind].
  assert (Hss : sum_sq_residuals X (map (fun _ => mean_axis0 (ncols X) [])
                                        nodes_elements) []
                = Ok (Fin 0)).
  { unfold sum_sq_residuals. cbn [take mapM bind]. rewrite HN.
    destruct nodes_elements as [|el ne]; simpl; [|reflexivity].
    destruct Hshape as [H|H]; [congruence|].
    destruct (ncols X) as [|[|n]]; [reflexivity | reflexivity | lia]. }
  rewrite Hss. cbn [bind aic length map]. f_equal. apply aic_of_no_point.
Qed.

Lemma compute_aic_no_broadcast X nodes_elements cand :
  npoints X = 0%nat -> nodes_elements = [] -> (2 <= ncols X)%nat ->
  compute_aic X nodes_elements cand = Raise ValueError.
Proof.
  intros HN -> Hd. apply length_zero_iff_nil in HN.
  unfold compute_aic, compute_aic_locals, score_locals, sum_sq_residuals.
  cbn [centroids_of mapM bind]. rewrite HN.
  cbn [labels_loop bind take mapM].
  change (build_clusters []) with (@Ok (list (list nat)) []). cbn [bind].
  destruct (ncols X) as [|[|n]]; [lia | lia | reflexivity].
Qed.

Lemma compute_aic_no_column X nodes_elements cand :
  ncols X = 0%nat -> well_indexed X nodes_elements cand ->
  compute_aic X nodes_elements cand = Ok NaN.
Proof.
  intros Hd Hwi.
  destruct (well_indexed_run _ _ _ Hwi) as (labels & cl & _ & _ & _ & _ & Hcl & Hrun).
  rewrite (compute_aic_of_locals _ _ _ _ Hrun). f_equal.
  cbn [locals_of aic]. rewrite Hd, (node_residual_no_column _ _ _ Hd).
  assert (Hs : forall N k, sigma_sq_of N (Z.of_nat 0) k (Fin 0) = NaN).
  { intros N k. unfold sigma_sq_of, of_int. cbn [fdiv Z.of_nat Z.mul].
    destruct (Req_dec_T 0 0); [|congruence].
    unfold Rsign. destruct (Rlt_dec 0 0); [lra | reflexivity]. }
  rewrite Hs. apply aic_of_NaN.
  - pose proof (wi_N _ _ _ Hwi). lia.
  - apply sizes_nonempty. now apply build_clusters_concat in Hcl.
Qed.

(** C4, as the code has it: [compute_aic] validates nothing up front.
    With fewer candidate lists than points, or with an empty candidate list
    for some point, the call fails (the exception comes out of the indexing or
    of [np.argmin] on the way).  With [N = 0] and a node table of empty
    nodes, or with [d = 0] on an otherwise well-indexed input, the call does
    not fail: it returns NaN (with [N = 0], no node at all and [d >= 2], the
    subtraction of step 3 cannot broadcast and raises [ValueError]).
    Candidate lists beyond the [N]-th are ignored. *)
Theorem malformed_inputs_are_not_validated X nodes_elements cand :
  ((length cand < npoints X)%nat -> raises (compute_aic X nodes_elements cand))
  /\ ((exists i, (i < npoints X)%nat /\ nth_error cand i = Some []) ->
      raises (compute_aic X nodes_elements cand))
  /\ (npoints X = 0%nat ->
      Forall (fun el => el = []) nodes_elements ->
      nodes_elements <> [] \/ (ncols X <= 1)%nat ->
      compute_aic X nodes_elements cand = Ok NaN)
  /\ (npoints X = 0%nat -> nodes_elements = [] -> (2 <= ncols X)%nat ->
      compute_aic X nodes_elements cand = Raise ValueError)
  /\ (ncols X = 0%nat -> well_indexed X nodes_elements cand ->
      compute_aic X nodes_elements cand = Ok NaN)
  /\ compute_aic X nodes_elements cand
     = compute_aic X nodes_elements (firstn (npoints X) cand).
Proof.
  repeat split.
  - intros Hlen. apply compute_aic_raises_of_labels. intros C _.
    now apply labels_loop_short.
  - intros (i & Hi & Hp). apply compute_aic_raises_of_labels. intros C _.
    now apply (labels_loop_empty_candidate C _ _ i).
  - apply compute_aic_no_point.
  - apply compute_aic_no_broadcast.
  - apply compute_aic_no_column.
  - unfold compute_aic, compute_aic_locals, npoints.
    destruct (centroids_of X nodes_elements) as [C|e]; [|reflexivity].
    cbn [bind]. now rewrite <- labels_loop_firstn.
Qed.

Lemma malformed_inputs_are_not_validated_witness :
  raises (compute_aic X_far nodes_pairs [[0]; [0]; [1]]%Z)
  /\ raises (compute_aic X_far nodes_pairs [[0]; [0]; []; [1]]%Z)
  /\ compute_aic (mk_ndarray 1 []) [] [] = Ok NaN.
Proof.
  split; [|split].
  - apply (proj1 (malformed_inputs_are_not_validated
                    X_far nodes_pairs [[0]; [0]; [1]]%Z)).
    unfold npoints. simpl. lia.
  - apply (proj1 (proj2 (malformed_inputs_are_not_validated
                           X_far nodes_pairs [[0]; [0]; []; [1]]%Z))).
    exists 2%nat. split; [unfold npoints; simpl; lia | reflexivity].
  - apply (proj1 (proj2 (proj2 (malformed_inputs_are_not_validated
                                  (mk_ndarray 1 []) [] [])))).
    + reflexivity.
    + constructor.
    + right. simpl. lia.
Defined.

(** The claim C4 as worded fails: with no point at all the call returns NaN;
    with [d = 0] it returns NaN; and with one candidate list too many it
    returns the score of scenario 2. *)
Lemma invalid_input_counterexample :
  compute_aic (mk_ndarray 1 []) [] [] = Ok NaN
  /\ compute_aic (mk_ndarray 0 [[]; []]) [[0; 1]]%Z [[0]; [0]]%Z = Ok NaN
  /\ length (cells_pairs ++ [[0%Z]]) <> npoints X_far
  /\ compute_aic X_far nodes_pairs (cells_pairs ++ [[0%Z]])
     = Ok (Fin (aic_value 4 1 2 [2; 2]%Z (1 / 2))).
Proof.
  split; [|split; [|split]].
  - apply compute_aic_no_point; [reflexivity | constructor | right; simpl; lia].
  - apply compute_aic_no_column; [reflexivity | solve_valid].
  - unfold npoints. simpl. lia.
  - unfold compute_aic, compute_aic_locals.
    destruct (centroids_of X_far nodes_pairs) as [C|e] eqn:EC.
    + cbn [bind]. rewrite labels_loop_firstn.
      change (firstn (length (rows X_far)) (cells_pairs ++ [[0%Z]])) with cells_pairs.
      pose proof locals_far as H. unfold compute_aic_locals in H.
      rewrite EC in H. cbn [bind] in H. rewrite H. reflexivity.
    + rewrite centroids_of_valid in EC by solve_valid. discriminate.
Qed.

(** ** Identifiers as indices *)

Lemma raises_not_Ok {A : Type} (m : result A) (a : A) : raises m -> m <> Ok a.
Proof. intros [e ->]. discriminate. Qed.

(** An identifier that the centroid table cannot serve survives the
    resolver only through the single-candidate shortcut, as a label. *)
Lemma labels_loop_keeps C (xs : list (list R)) :
  forall (cand : list (list Z)) (labels : list Z) (i : nat) (p : list Z) (c : Z),
    labels_loop C xs cand = Ok labels ->
    (i < length xs)%nat -> nth_error cand i = Some p -> In c p ->
    raises (getitem C c) -> In c labels.
Proof.
  induction xs as [|x xs IH]; intros [|p0 cand] labels i p c H Hi Hp Hc Hr;
    simpl in *; try lia; try discriminate.
  apply bind_Ok in H as (l & Hl & H). apply bind_Ok in H as (ls & Hls & H).
  inversion H; subst labels; clear H.
  destruct i as [|i]; simpl in Hp.
  - inversion Hp; subst p0; clear Hp. left.
    unfold resolve_point in Hl.
    destruct (Nat.eqb_spec (length p) 1) as [E|E].
    + destruct p as [|c0 [|c1 p]]; try discriminate.
      destruct Hc as [->|[]]. now inversion Hl.
    + exfalso. apply bind_Ok in Hl as (ds & Hds & _).
      revert Hds. apply raises_not_Ok. unfold distances.
      apply (mapM_raises _ _ c Hc). now apply raises_bind.
  - right. apply (IH cand ls i p c); auto. lia.
Qed.

Lemma out_of_range_identifier_raises X nodes_elements cand i p c :
  (i < npoints X)%nat -> nth_error cand i = Some p -> In c p ->
  (c < - Z.of_nat (length nodes_elements) \/ Z.of_nat (length nodes_elements) <= c)%Z ->
  raises (compute_aic X nodes_elements cand).
Proof.
  intros Hi Hp Hc Hout. unfold compute_aic, compute_aic_locals.
  apply raises_bind.
  destruct (centroids_of X nodes_elements) as [C|e] eqn:EC; [|now exists e].
  cbn [bind].
  assert (Hr : raises (getitem C c)).
  { apply getitem_raises. apply mapM_length in EC. now rewrite EC. }
  destruct (labels_loop C (rows X) cand) as [labels|e] eqn:EL; [|now exists e].
  cbn [bind]. unfold score_locals.
  destruct (build_clusters labels) as [cl|e]; [|now exists e].
  cbn [bind]. apply raises_bind. unfold sum_sq_residuals. apply raises_bind.
  apply (mapM_raises _ _ c); [|exact Hr].
  exact (labels_loop_keeps C _ _ _ i p c EL Hi Hp Hc Hr).
Qed.

(** C9, as the code has it: When every identifier [c] of the candidate lists
    satisfies [0 <= c < len(nodes_elements)] (on an otherwise well-indexed
    input), every lookup is in bounds and [compute_aic] returns.  An
    identifier [c >= len(nodes_elements)] or [c < -len(nodes_elements)] in the
    candidate list of some point makes the call fail.  (The identifiers from
    [-len(nodes_elements)] to [-1] are not covered: Python counts them from
    the end of the table.) *)
Theorem identifiers_index_the_node_table X nodes_elements cand :
  (well_indexed X nodes_elements cand ->
   exists labels cl v,
     hard_labels X nodes_elements cand = Ok labels
     /\ Forall (in_range (length nodes_elements)) labels
     /\ build_clusters labels = Ok cl
     /\ compute_aic X nodes_elements cand = Ok v)
  /\ (forall i p c,
         (i < npoints X)%nat -> nth_error cand i = Some p -> In c p ->
         (c < - Z.of_nat (length nodes_elements)
          \/ Z.of_nat (length nodes_elements) <= c)%Z ->
         raises (compute_aic X nodes_elements cand)).
Proof.
  split.
  - intros Hwi.
    destruct (well_indexed_run _ _ _ Hwi) as (labels & cl & _ & Hl & _ & Hr & Hcl & Hrun).
    exists labels, cl. eexists. split; [exact Hl|]. split; [exact Hr|].
    split; [exact Hcl|]. exact (compute_aic_of_locals _ _ _ _ Hrun).
  - apply out_of_range_identifier_raises.
Qed.

Lemma identifiers_index_the_node_table_witness :
  well_indexed X_far nodes_pairs cells_pairs
  /\ (exists v, compute_aic X_far nodes_pairs cells_pairs = Ok v)
  /\ raises (compute_aic X_far nodes_pairs [[0]; [0]; [1]; [2]]%Z)
  /\ raises (compute_aic X_far nodes_pairs [[0]; [0]; [1]; [0; -3]]%Z).
Proof.
  split; [solve_valid|]. split; [|split].
  - destruct (proj1 (identifiers_index_the_node_table X_far nodes_pairs cells_pairs))
      as (labels & cl & v & _ & _ & _ & Hv); [solve_valid|].
    now exists v.
  - apply (proj2 (identifiers_index_the_node_table
                    X_far nodes_pairs [[0]; [0]; [1]; [2]]%Z) 3%nat [2%Z] 2%Z).
    + unfold npoints. simpl. lia.
    + reflexivity.
    + now left.
    + simpl. lia.
  - apply (proj2 (identifiers_index_the_node_table
                    X_far nodes_pairs [[0]; [0]; [1]; [0; -3]]%Z)
                 3%nat [0; -3]%Z (-3)%Z).
    + unfold npoints. simpl. lia.
    + reflexivity.
    + right. now left.
    + simpl. lia.
Defined.

(** The claim C9 as worded fails for a negative identifier: the third point
    offers the identifier [-1] with a single node in the table; the label [-1]
    appends to the last cluster and reads the last centroid, and a finite
    score is returned. *)
Lemma negative_identifier_counterexample :
  ~ in_range (length nodes_all) (-1)%Z
  /\ hard_labels X_three nodes_all cells_negative = Ok [0; 0; -1]%Z
  /\ build_clusters [0; 0; -1]%Z = Ok [[0; 1; 2]]%nat
  /\ compute_aic X_three nodes_all cells_negative
     = Ok (Fin (aic_value 3 1 1 [3]%Z (7 / 3))).
Proof.
  assert (HC : centroids_of X_three nodes_all = Ok (table X_three nodes_all))
    by (apply centroids_of_valid; solve_valid).
  split; [unfold in_range; lia|].
  split; [unfold hard_labels; rewrite HC; reflexivity|].
  split; [reflexivity|].
  unfold compute_aic, compute_aic_locals. rewrite HC. cbn [bind].
  change (labels_loop (table X_three nodes_all) (rows X_three) cells_negative)
    with (@Ok (list Z) [0; 0; -1]%Z).
  cbn [bind]. unfold score_locals.
  change (build_clusters [0; 0; -1]%Z) with (@Ok (list (list nat)) [[0; 1; 2]]%nat).
  cbn [bind].
  assert (Hss : sum_sq_residuals X_three (table X_three nodes_all) [0; 0; -1]%Z
                = Ok (Fin (14 / 3))).
  { unfold sum_sq_residuals, table, nodes_all. cbn [map].
    remember (node_centroid X_three [0; 1; 2]%Z) as c eqn:Ec.
    change (take [map Fin c] [0; 0; -1]%Z)
      with (@Ok (list (list float64)) [map Fin c; map Fin c; map Fin c]).
    cbn [bind X_three rows zipWith concat].
    rewrite app_nil_r, !squares_vsub_Fin, <- !map_app, fsum_Fin. do 2 f_equal.
    subst c. unfold node_centroid, vsum, Rsum, at_. simpl. lra. }
  rewrite Hss. cbn [bind aic]. do 2 f_equal.
  change (Z.of_nat (length (rows X_three))) with 3%Z.
  change (Z.of_nat (ncols X_three)) with 1%Z.
  change (Z.of_nat (length [[0; 1; 2]]%nat)) with 1%Z.
  change (map (fun c => Z.of_nat (length c)) [[0; 1; 2]]%nat) with [3]%Z.
  rewrite sigma_sq_of_lt by lia.
  replace (14 / 3 / (1 * (3 - 1))) with (7 / 3) by lra.
  rewrite aic_of_finite;
    first [reflexivity | lia | lra | repeat (constructor; try lia)].
Qed.

(** ** Renaming the labels *)







Lemma score_locals_valid X nodes_elements labels cl :
  rows X <> [] ->
  Forall (in_range (length nodes_elements)) labels ->
  build_clusters labels = Ok cl ->
  score_locals X (table X nodes_elements) labels
  = Ok (locals_of X nodes_elements labels cl).
Proof.
  intros HX Hr Hcl. unfold score_locals. rewrite Hcl. cbn [bind].
  now rewrite (sum_sq_residuals_valid X nodes_elements labels HX Hr).
Qed.


(** ** The caller: node identifiers *)

Lemma key_eqb_eq (a b : key) : key_eqb a b = true <-> a = b.
Proof.
  destruct a as [a1 a2], b as [b1 b2]. unfold key_eqb. simpl.
  rewrite andb_true_iff, !Z.eqb_eq. split.
  - intros [-> ->]. reflexivity.
  - intros E. inversion E. auto.
Qed.

Lemma key_eqb_refl (a : key) : key_eqb a a = true.
Proof. now apply key_eqb_eq. Qed.

Lemma key_eqb_neq (a b : key) : key_eqb a b = false <-> a <> b.
Proof.
  rewrite <- key_eqb_eq. destruct (key_eqb a b); split; congruence.
Qed.

Lemma dict_get_set (d : dict) (k k' : key) (v : nat) :
  dict_get (dict_set d k v) k' = if key_eqb k k' then Some v else dict_get d k'.
Proof.
  induction d as [|[k0 v0] d IH]; simpl.
  - reflexivity.
  - destruct (key_eqb k0 k) eqn:E0; simpl.
    + apply key_eqb_eq in E0. subst k0.
      destruct (key_eqb k k'); reflexivity.
    + destruct (key_eqb k0 k') eqn:E1; [|exact IH].
      apply key_eqb_eq in E1. subst k0.
      destruct (key_eqb k k') eqn:E2; [|reflexivity].
      apply key_eqb_eq in E2. subst k'. rewrite key_eqb_refl in E0. discriminate.
Qed.

Lemma global_ids_from_get (nodes : list vertex) :
  forall (i : nat) (d : dict) (k : key),
    dict_get (global_ids_from i nodes d) k
    = match last_key_index k nodes with
      | Some j => Some (i + j)%nat
      | None => dict_get d k
      end.
Proof.
  induction nodes as [|v nodes IH]; intros i d k; simpl; [reflexivity|].
  rewrite IH. destruct (last_key_index k nodes) as [j|].
  - f_equal. lia.
  - rewrite dict_get_set. destruct (key_eqb (vertex_key v) k).
    + f_equal. lia.
    + reflexivity.
Qed.

Lemma last_key_index_None (k : key) (nodes : list vertex) :
  last_key_index k nodes = None <-> forall v, In v nodes -> vertex_key v <> k.
Proof.
  induction nodes as [|v nodes IH]; simpl.
  - split; [intros _ v [] | reflexivity].
  - destruct (last_key_index k nodes) as [j|].
    + split; [discriminate|]. intros H. exfalso.
      assert (Hn : @None nat = None) by reflexivity.
      destruct IH as [_ IH]. discriminate IH. intros w Hw. apply H. now right.
    + destruct (key_eqb (vertex_key v) k) eqn:E.
      * split; [discriminate|]. intros H. exfalso.
        apply key_eqb_eq in E. apply (H v); auto.
      * apply key_eqb_neq in E. split; [|reflexivity].
        intros _ w [<-|Hw]; [exact E|]. now apply IH.
Qed.

Lemma last_key_index_Some (k : key) (nodes : list vertex) (j : nat) :
  last_key_index k nodes = Some j
  <-> (exists v, nth_error nodes j = Some v /\ vertex_key v = k)
      /\ (forall j' v', (j < j')%nat -> nth_error nodes j' = Some v' ->
                        vertex_key v' <> k).
Proof.
  revert j; induction nodes as [|v nodes IH]; intros j; simpl.
  - split; [discriminate|]. intros [(w & Hw & _) _]. destruct j; discriminate.
  - destruct (last_key_index k nodes) as [j0|] eqn:E0.
    + split.
      * intros H. inversion H; subst j; clear H.
        destruct (proj1 (IH j0) eq_refl) as [Hex Hlast]. split; [exact Hex|].
        intros [|j'] v' Hlt Hv'; [lia|]. simpl in Hv'.
        apply (Hlast j' v'); [lia | exact Hv'].
      * intros [(w & Hw & Hk) Hlast]. destruct j as [|j].
        -- exfalso. destruct (proj1 (IH j0) eq_refl) as [(w0 & Hw0 & Hk0) _].
           apply (Hlast (S j0) w0); [lia | exact Hw0 | exact Hk0].
        -- f_equal. f_equal. symmetry.
           assert (H : Some j0 = Some j); [|now inversion H].
           apply IH. split; [now exists w|].
           intros j' v' Hlt Hv'. apply (Hlast (S j') v'); [lia | exact Hv'].
    + pose proof (proj1 (last_key_index_None k nodes) E0) as Hnone.
      destruct (key_eqb (vertex_key v) k) eqn:E.
      * apply key_eqb_eq in E. split.
        -- intros H. inversion H; subst j. split; [now exists v|].
           intros [|j'] v' Hlt Hv'; [lia|]. simpl in Hv'.
           apply Hnone. eapply nth_error_In; eauto.
        -- intros [(w & Hw & Hk) _]. destruct j as [|j]; [reflexivity|].
           exfalso. simpl in Hw. apply (Hnone w); [|exact Hk].
           eapply nth_error_In; eauto.
      * apply key_eqb_neq in E. split; [discriminate|].
        intros [(w & Hw & Hk) _]. exfalso. destruct j as [|j]; simpl in Hw.
        -- inversion Hw; subst w. contradiction.
        -- apply (Hnone w); [|exact Hk]. eapply nth_error_In; eauto.
Qed.

Lemma global_ids_get (nodes : list vertex) (k : key) :
  dict_get (global_ids nodes) k = last_key_index k nodes.
Proof.
  unfold global_ids. rewrite global_ids_from_get.
  destruct (last_key_index k nodes); reflexivity.
Qed.

(** X1: [global_ids] maps a tuple to the position of the last vertex that
    carries it (a later vertex overwrites an earlier one with the same
    tuple), and has no entry for a tuple that no vertex carries.  When the
    tuples of the vertices are pairwise distinct, the tuple of vertex [i] is
    mapped to [i]. *)
Theorem global_ids_lookup (nodes : list vertex) (k : key) :
  (forall j,
      dict_get (global_ids nodes) k = Some j
      <-> (exists v, nth_error nodes j = Some v /\ vertex_key v = k)
          /\ (forall j' v', (j < j')%nat -> nth_error nodes j' = Some v' ->
                            vertex_key v' <> k))
  /\ (dict_get (global_ids nodes) k = None
      <-> forall v, In v nodes -> vertex_key v <> k)
  /\ (NoDup (map vertex_key nodes) ->
      forall i v, nth_error nodes i = Some v -> vertex_key v = k ->
                  dict_get (global_ids nodes) k = Some i).
Proof.
  rewrite global_ids_get. split; [|split].
  - intros j. apply last_key_index_Some.
  - apply last_key_index_None.
  - intros Hnd i v Hv Hk. apply last_key_index_Some.
    split; [now exists v|]. intros j' v' Hlt Hv' Hk'.
    assert (Hi : nth_error (map vertex_key nodes) i = Some k)
      by (rewrite <- Hk; now apply map_nth_error).
    assert (Hj : nth_error (map vertex_key nodes) j' = Some k)
      by (rewrite <- Hk'; now apply map_nth_error).
    assert (Hlen : (i < length (map vertex_key nodes))%nat)
      by (apply nth_error_Some; congruence).
    pose proof (proj1 (NoDup_nth_error _) Hnd i j' Hlen) as Hinj.
    rewrite Hi, Hj in Hinj. specialize (Hinj eq_refl). lia.
Qed.

Lemma global_ids_lookup_witness :
  NoDup (map vertex_key [mk_vertex 0 0 [0; 1]; mk_vertex 1 0 [1; 2]]%Z)
  /\ dict_get (global_ids [mk_vertex 0 0 [0; 1]; mk_vertex 1 0 [1; 2]]%Z)
              (1, 0)%Z
     = Some 1%nat.
Proof.
  assert (Hnd : NoDup (map vertex_key
                           [mk_vertex 0 0 [0; 1]; mk_vertex 1 0 [1; 2]]%Z)).
  { simpl. constructor; [|constructor; [|constructor]]; simpl.
    - intros [E|[]]. discriminate.
    - intros []. }
  split; [exact Hnd|].
  destruct (global_ids_lookup [mk_vertex 0 0 [0; 1]; mk_vertex 1 0 [1; 2]]%Z
                              (1, 0)%Z) as (_ & _ & H).
  apply (H Hnd 1%nat (mk_vertex 1 0 [1; 2]%Z)); reflexivity.
Defined.

Lemma known_dec (nodes : list vertex) (tup : key) :
  known nodes tup \/ (forall v, In v nodes -> vertex_key v <> tup).
Proof.
  destruct (last_key_index tup nodes) as [j|] eqn:E.
  - left. apply last_key_index_Some in E as [(v & Hv & Hk) _].
    exists v. split; [eapply nth_error_In; eauto | exact Hk].
  - right. now apply last_key_index_None.
Qed.

Lemma lookup_id_known (nodes : list vertex) (tup : key) :
  known nodes tup ->
  exists j, dict_get (global_ids nodes) tup = Some j
            /\ designates nodes (Z.of_nat j) tup.
Proof.
  intros (v & Hv & Hk). rewrite global_ids_get.
  destruct (last_key_index tup nodes) as [j|] eqn:E.
  - exists j. split; [reflexivity|].
    apply last_key_index_Some in E as [(w & Hw & Hkw) _].
    assert (Hlt : (j < length nodes)%nat) by (apply nth_error_Some; congruence).
    split; [unfold in_range; lia|]. exists w. now rewrite Nat2Z.id.
  - exfalso. apply (proj1 (last_key_index_None tup nodes) E v Hv Hk).
Qed.

Lemma lookup_ids_known (nodes : list vertex) (tups : list key) :
  Forall (known nodes) tups ->
  exists p, lookup_ids (global_ids nodes) tups = Done p
            /\ Forall2 (designates nodes) p tups.
Proof.
  unfold lookup_ids. induction 1 as [|tup tups Hk _ (p & Hp & HF)]; simpl.
  - exists []. split; [reflexivity | constructor].
  - destruct (lookup_id_known nodes tup Hk) as (j & Hj & Hd).
    rewrite Hj. simpl. rewrite Hp. simpl.
    exists (Z.of_nat j :: p). split; [reflexivity | now constructor].
Qed.

Lemma lookup_ids_unknown (nodes : list vertex) (tups : list key) :
  Exists (fun tup => ~ known nodes tup) tups ->
  exists k, lookup_ids (global_ids nodes) tups = Fail (KeyError k)
            /\ ~ known nodes k.
Proof.
  unfold lookup_ids. induction tups as [|tup tups IH]; intros Hex.
  - inversion Hex.
  - simpl. rewrite global_ids_get.
    destruct (last_key_index tup nodes) as [j|] eqn:E; simpl.
    + destruct IH as (k & Hk & Hu).
      { inversion Hex as [? ? Hhd|? ? Htl]; subst; [|exact Htl].
        exfalso. apply Hhd.
        apply last_key_index_Some in E as [(v & Hv & Hkv) _].
        exists v. split; [eapply nth_error_In; eauto | exact Hkv]. }
      exists k. split; [|exact Hu]. rewrite Hk. reflexivity.
    + exists tup. split; [reflexivity|].
      intros (v & Hv & Hkv).
      apply (proj1 (last_key_index_None tup nodes) E v Hv Hkv).
Qed.

Lemma Forall_firstn_S {A : Type} (P : A -> Prop) (n : nat) (a : A) (l : list A) :
  Forall P (firstn (S n) (a :: l)) -> P a /\ Forall P (firstn n l).
Proof. simpl. intros H. inversion H; auto. Qed.

(** X2: When [labels] has an entry for each of the [N] points and every
    tuple listed for them is carried by some vertex, the construction of
    [X_idx_to_node_idxs] succeeds; it yields one list per point, of the length
    of the point's tuple list, and each identifier is the position
    ([0 <= c < len(nodes)]) of a vertex carrying the corresponding tuple. *)
Theorem node_idxs_designate (nodes : list vertex) (n : nat)
        (labels : list (list key)) :
  (n <= length labels)%nat ->
  Forall (Forall (known nodes)) (firstn n labels) ->
  exists cand,
    node_idxs (global_ids nodes) n labels = Done cand
    /\ length cand = n
    /\ Forall2 (Forall2 (designates nodes)) cand (firstn n labels).
Proof.
  revert labels; induction n as [|n IH]; intros labels Hlen Hk.
  - exists []. simpl. repeat split. constructor.
  - destruct labels as [|tups labels]; [simpl in Hlen; lia|].
    apply Forall_firstn_S in Hk as [Hk0 Hk].
    destruct (lookup_ids_known nodes tups Hk0) as (p & Hp & HF).
    destruct (IH labels) as (ps & Hps & Hl & HFs); [simpl in Hlen; lia | exact Hk|].
    exists (p :: ps). simpl. rewrite Hp. simpl. rewrite Hps. simpl.
    split; [reflexivity|]. split; [now f_equal | now constructor].
Qed.

Lemma node_idxs_designate_witness :
  exists cand,
    node_idxs (global_ids [mk_vertex 0 0 [0; 1]; mk_vertex 1 0 [1; 2]]%Z) 3
              [[(0, 0)]; [(0, 0); (1, 0)]; [(1, 0)]]%Z = Done cand
    /\ length cand = 3%nat
    /\ Forall2 (Forall2 (designates [mk_vertex 0 0 [0; 1]; mk_vertex 1 0 [1; 2]]%Z))
               cand (firstn 3 [[(0, 0)]; [(0, 0); (1, 0)]; [(1, 0)]]%Z).
Proof.
  apply (node_idxs_designate [mk_vertex 0 0 [0; 1]; mk_vertex 1 0 [1; 2]]%Z 3
                             [[(0, 0)]; [(0, 0); (1, 0)]; [(1, 0)]]%Z).
  - simpl. lia.
  - assert (K0 : known [mk_vertex 0 0 [0; 1]; mk_vertex 1 0 [1; 2]]%Z (0, 0)%Z)
      by (eexists; split; [left; reflexivity | reflexivity]).
    assert (K1 : known [mk_vertex 0 0 [0; 1]; mk_vertex 1 0 [1; 2]]%Z (1, 0)%Z)
      by (eexists; split; [right; left; reflexivity | reflexivity]).
    simpl. repeat constructor; assumption.
Defined.

(** X3: A tuple that no vertex carries, listed for one of the points that
    [labels] covers among the first [N], makes the construction fail with
    [KeyError] on such a tuple.  When every tuple is carried by a vertex but
    [labels] has fewer than [N] entries, it fails with [IndexError]. *)
Theorem node_idxs_failures (nodes : list vertex) (n : nat)
        (labels : list (list key)) :
  (Exists (Exists (fun tup => ~ known nodes tup)) (firstn n labels) ->
   exists k, node_idxs (global_ids nodes) n labels = Fail (KeyError k)
             /\ ~ known nodes k)
  /\ ((length labels < n)%nat ->
      Forall (Forall (known nodes)) labels ->
      node_idxs (global_ids nodes) n labels = Fail (Inner IndexError)).
Proof.
  split.
  - revert labels; induction n as [|n IH]; intros labels Hex.
    + simpl in Hex. inversion Hex.
    + destruct labels as [|tups labels]; [inversion Hex|]. simpl in Hex |- *.
      assert (Hd : Exists (fun tup => ~ known nodes tup) tups
                   \/ Forall (known nodes) tups).
      { clear. induction tups as [|t tups [IH|IH]]; [right; constructor| |].
        - left. now constructor 2.
        - destruct (known_dec nodes t) as [Hk|Hu].
          + right. now constructor.
          + left. constructor. intros (v & Hv & Hkv). exact (Hu v Hv Hkv). }
      destruct Hd as [Hd|Hd].
      * destruct (lookup_ids_unknown nodes tups Hd) as (k & Hk & Hu).
        exists k. rewrite Hk. auto.
      * destruct (lookup_ids_known nodes tups Hd) as (p & Hp & _).
        rewrite Hp. simpl.
        destruct (IH labels) as (k & Hk & Hu).
        { inversion Hex as [? ? Hhd|? ? Htl]; subst; [|exact Htl].
          exfalso. apply Exists_exists in Hhd as (t & Ht & Hu).
          rewrite Forall_forall in Hd. auto. }
        exists k. rewrite Hk. auto.
  - revert labels; induction n as [|n IH]; intros labels Hlen Hk; [lia|].
    destruct labels as [|tups labels]; [reflexivity|]. simpl in *.
    inversion Hk as [|? ? Hk0 Hk']; subst.
    destruct (lookup_ids_known nodes tups Hk0) as (p & Hp & _).
    rewrite Hp. simpl. rewrite IH by (lia || assumption). reflexivity.
Qed.

Lemma node_idxs_failures_witness :
  (exists k, node_idxs (global_ids [mk_vertex 0 0 [0]%Z]) 2
                       [[(0, 0)]; [(0, 7)]]%Z = Fail (KeyError k))
  /\ node_idxs (global_ids [mk_vertex 0 0 [0]%Z]) 2 [[(0, 0)]]%Z
     = Fail (Inner IndexError).
Proof.
  assert (K0 : known [mk_vertex 0 0 [0]%Z] (0, 0)%Z)
    by (eexists; split; [left; reflexivity | reflexivity]).
  split.
  - destruct (proj1 (node_idxs_failures [mk_vertex 0 0 [0]%Z] 2
                                         [[(0, 0)]; [(0, 7)]]%Z))
      as (k & Hk & _); [|now exists k].
    simpl. constructor 2. constructor. constructor.
    intros (v & [<-|[]] & Hv). discriminate.
  - apply (proj2 (node_idxs_failures [mk_vertex 0 0 [0]%Z] 2 [[(0, 0)]]%Z)).
    + simpl. lia.
    + repeat constructor. exact K0.
Defined.

Lemma designates_nonempty (nodes : list vertex) (cand : list (list Z))
      (labels : list (list key)) :
  Forall2 (Forall2 (designates nodes)) cand labels ->
  Forall (fun tups => tups <> []) labels ->
  Forall (fun p => p <> []) cand
  /\ Forall (Forall (in_range (length nodes))) cand.
Proof.
  induction 1 as [|p tups cand labels Hp _ IH]; intros Hne.
  - split; constructor.
  - inversion Hne as [|? ? Hne0 Hne']; subst.
    destruct (IH Hne') as [IH1 IH2]. split; constructor; auto.
    + destruct Hp; [congruence | discriminate].
    + clear -Hp. induction Hp as [|c tup p tups [Hc _] _ IHp]; constructor; auto.
Qed.

Lemma node_idxs_all (nodes : list vertex) (labels : list (list key)) :
  Forall (Forall (known nodes)) labels ->
  exists cand,
    node_idxs (global_ids nodes) (length labels) labels = Done cand
    /\ Forall2 (Forall2 (designates nodes)) cand labels.
Proof.
  induction 1 as [|tups labels Hk0 _ (ps & Hps & HFs)]; simpl.
  - exists []. split; [reflexivity | constructor].
  - destruct (lookup_ids_known nodes tups Hk0) as (p & Hp & HF).
    exists (p :: ps). rewrite Hp. simpl. rewrite Hps. simpl.
    split; [reflexivity | now constructor].
Qed.

(** X4: On the outcome of a fitted Mapper pipeline ([X] an [N x d] array
    with [N >= 1]; one non-empty tuple list per point, each tuple carried by
    some vertex; every vertex a non-empty set of point indices below [N]),
    [AIC_score] raises nothing: it returns the parameters it was given
    together with the float that [compute_aic] returns on the vertices'
    elements and the identifiers it built. *)
Theorem AIC_score_returns {P : Type} (pipeline_params : P) (X : ndarray)
        (nodes : list vertex) (labels : list (list key)) :
  wf_ndarray X -> (1 <= npoints X)%nat ->
  length labels = npoints X ->
  Forall (fun tups => tups <> []) labels ->
  Forall (Forall (known nodes)) labels ->
  Forall (fun v => node_elements v <> []
                   /\ Forall (in_range (npoints X)) (node_elements v)) nodes ->
  exists cand score,
    node_idxs (global_ids nodes) (npoints X) labels = Done cand
    /\ well_indexed X (map node_elements nodes) cand
    /\ compute_aic X (map node_elements nodes) cand = Ok score
    /\ AIC_score pipeline_params X nodes labels = Done (pipeline_params, score).
Proof.
  intros Hwf HN Hlen Hne Hk Hnodes.
  destruct (node_idxs_all nodes labels Hk) as (cand & Hc & HF).
  rewrite Hlen in Hc.
  assert (Hl : length cand = npoints X)
    by (rewrite <- Hlen; exact (Forall2_length HF)).
  destruct (designates_nonempty _ _ _ HF Hne) as [Hcne Hcr].
  assert (Hwi : well_indexed X (map node_elements nodes) cand).
  { constructor; try assumption.
    - now rewrite length_map.
    - apply Forall_map. exact Hnodes. }
  destruct (well_indexed_run _ _ _ Hwi) as (ls & cl & _ & _ & _ & _ & _ & Hrun).
  exists cand. eexists. split; [exact Hc|]. split; [exact Hwi|].
  split; [exact (compute_aic_of_locals _ _ _ _ Hrun)|].
  unfold AIC_score. fold (npoints X). rewrite Hc. simpl.
  now rewrite (compute_aic_of_locals _ _ _ _ Hrun).
Qed.

Lemma AIC_score_returns_witness :
  exists cand score,
    node_idxs (global_ids [mk_vertex 0 0 [0; 1]; mk_vertex 1 0 [1; 2]]%Z)
              (npoints X_line) [[(0, 0)]; [(0, 0); (1, 0)]; [(1, 0)]]%Z
    = Done cand
    /\ well_indexed X_line
         (map node_elements [mk_vertex 0 0 [0; 1]; mk_vertex 1 0 [1; 2]]%Z) cand
    /\ compute_aic X_line
         (map node_elements [mk_vertex 0 0 [0; 1]; mk_vertex 1 0 [1; 2]]%Z) cand
       = Ok score
    /\ AIC_score tt X_line [mk_vertex 0 0 [0; 1]; mk_vertex 1 0 [1; 2]]%Z
                 [[(0, 0)]; [(0, 0); (1, 0)]; [(1, 0)]]%Z
       = Done (tt, score).
Proof.
  assert (K0 : known [mk_vertex 0 0 [0; 1]; mk_vertex 1 0 [1; 2]]%Z (0, 0)%Z)
    by (eexists; split; [left; reflexivity | reflexivity]).
  assert (K1 : known [mk_vertex 0 0 [0; 1]; mk_vertex 1 0 [1; 2]]%Z (1, 0)%Z)
    by (eexists; split; [right; left; reflexivity | reflexivity]).
  apply (AIC_score_returns tt X_line
           [mk_vertex 0 0 [0; 1]; mk_vertex 1 0 [1; 2]]%Z
           [[(0, 0)]; [(0, 0); (1, 0)]; [(1, 0)]]%Z).
  - solve_valid.
  - unfold npoints. simpl. lia.
  - reflexivity.
  - repeat constructor; discriminate.
  - repeat constructor; assumption.
  - repeat constructor; try discriminate; unfold in_range, npoints; simpl; lia.
Defined.

(** ** The caller: selection of the best score *)

Lemma fleb_fle (x y : float64) : fleb x y = true <-> fle x y.
Proof.
  destruct x as [a| | |], y as [b| | |]; simpl;
    try (split; [discriminate | tauto]); try tauto.
  destruct (Rlt_dec b a); split; intros; try discriminate; try lra; reflexivity.
Qed.

Lemma fle_trans (x y z : float64) : fle x y -> fle y z -> fle x z.
Proof.
  destruct x as [a| | |], y as [b| | |], z as [c| | |]; simpl; try tauto.
  lra.
Qed.

Lemma fle_total (x y : float64) : x <> NaN -> y <> NaN -> fle x y \/ fle y x.
Proof.
  destruct x as [a| | |], y as [b| | |]; simpl; try tauto; try congruence.
  intros _ _. lra.
Qed.

Lemma fle_refl (x : float64) : x <> NaN -> fle x x.
Proof. intros H. destruct (fle_total x x H H); assumption. Qed.

Lemma argmax_scan_no_nan (l : list float64) :
  forall (pre : list float64) (mp : float64) (mi : nat),
    Forall (fun y => y <> NaN) l -> mp <> NaN ->
    nth_error pre mi = Some mp ->
    (forall y, In y pre -> fle y mp) ->
    (forall t y, (t < mi)%nat -> nth_error pre t = Some y -> ~ fle mp y) ->
    exists v,
      nth_error (pre ++ l) (argmax_scan mi mp (length pre) l) = Some v
      /\ (forall y, In y (pre ++ l) -> fle y v)
      /\ (forall t y, (t < argmax_scan mi mp (length pre) l)%nat ->
                      nth_error (pre ++ l) t = Some y -> ~ fle v y).
Proof.
  induction l as [|x l IH]; intros pre mp mi Hl Hmp Hmi Hmax Hfirst.
  - simpl. rewrite app_nil_r. exists mp. auto.
  - inversion Hl as [|? ? Hx Hl']; subst.
    assert (Hlt : (mi < length pre)%nat) by (apply nth_error_Some; congruence).
    replace (pre ++ x :: l) with ((pre ++ [x]) ++ l) by (now rewrite <- app_assoc).
    assert (Elen : S (length pre) = length (pre ++ [x]))
      by (rewrite length_app; simpl; lia).
    simpl. destruct mp as [m| | |] eqn:Emp; try congruence; simpl;
      rewrite <- Emp in *; clear Emp.
    all: destruct (fleb x mp) eqn:E; simpl; rewrite Elen.
    all: try (apply IH; try assumption;
              [ rewrite nth_error_app1 by lia; exact Hmi
              | intros y Hy; apply in_app_or in Hy as [Hy|[<-|[]]];
                [auto | now apply fleb_fle]
              | intros t y Ht Hy; rewrite nth_error_app1 in Hy by lia; eauto ]).
    all: assert (Hn : ~ fle x mp)
        by (intros Hc; apply fleb_fle in Hc; congruence);
      assert (Hxm : fle mp x)
        by (destruct (fle_total x mp Hx Hmp); [contradiction | assumption]).
    all: replace (length pre) with (length pre + 0)%nat at 1 by lia;
      replace (length pre + 0)%nat with (length pre) by lia;
      apply IH; try assumption;
      [ rewrite nth_error_app2 by lia;
        replace (length pre - length pre)%nat with 0%nat by lia; reflexivity
      | intros y Hy; apply in_app_or in Hy as [Hy|[<-|[]]];
        [apply (fle_trans y mp x); auto | now apply fle_refl]
      | intros t y Ht Hy Hc; rewrite nth_error_app1 in Hy by lia;
        apply nth_error_In in Hy; apply Hn; apply (fle_trans x y mp); auto ].
Qed.

Lemma argmax_scan_first_nan (pre rest : list float64) :
  forall (mi : nat) (mp : float64) (i : nat),
    mp <> NaN -> Forall (fun y => y <> NaN) pre ->
    argmax_scan mi mp i (pre ++ NaN :: rest) = (i + length pre)%nat.
Proof.
  induction pre as [|x pre IH]; intros mi mp i Hmp Hpre; simpl.
  - destruct mp; try congruence; simpl;
      destruct rest; simpl; lia.
  - inversion Hpre as [|? ? Hx Hpre']; subst.
    destruct mp; try congruence; simpl.
    all: destruct (fleb x _); simpl; rewrite IH by assumption; lia.
Qed.

(** X5: When no score is NaN (and there is at least one result), the
    selection returns the first entry of greatest score in the order
    [-inf < finite < +inf]: its score is at least every score, and every
    earlier entry has a strictly smaller score.  In particular a score of
    [+inf], when present, is selected over every finite score. *)
Theorem select_best_first_maximum {P : Type} (results : list (P * float64)) :
  results <> [] ->
  Forall (fun r => snd r <> NaN) results ->
  exists j p s,
    select_best results = Ok (p, s)
    /\ nth_error results j = Some (p, s)
    /\ (forall r, In r results -> fle (snd r) s)
    /\ (forall t r, (t < j)%nat -> nth_error results t = Some r -> ~ fle s (snd r))
    /\ ((exists r, In r results /\ snd r = PInf) -> s = PInf).
Proof.
  intros Hne Hnn. destruct results as [|[p0 s0] results]; [congruence|].
  inversion Hnn as [|? ? H0 Hnn']; subst. simpl in H0.
  destruct (argmax_scan_no_nan (map snd results) [s0] s0 0%nat) as (v & Hv & Hmax & Hfirst).
  - apply Forall_map. exact Hnn'.
  - exact H0.
  - reflexivity.
  - intros y [<-|[]]. now apply fle_refl.
  - intros t y Ht. lia.
  - simpl in Hv, Hmax, Hfirst.
    set (j := argmax_scan 0 s0 1 (map snd results)) in *.
    change (s0 :: map snd results) with (map snd ((p0, s0) :: results)) in *.
    destruct (nth_error ((p0, s0) :: results) j) as [[p s]|] eqn:Ej.
    2:{ apply nth_error_None in Ej.
        assert (Hlt : (j < length (map snd ((p0, s0) :: results)))%nat)
          by (apply nth_error_Some; congruence).
        rewrite length_map in Hlt. lia. }
    pose proof (map_nth_error snd _ _ Ej) as Hs. rewrite Hv in Hs.
    inversion Hs; subst v; clear Hs. cbn [snd] in Hmax, Hfirst.
    exists j, p, s. split; [|split; [exact Ej|split; [|split]]].
    + unfold select_best. simpl. fold j. now apply getitem_of_nat.
    + intros r Hr. apply Hmax. now apply (in_map snd) in Hr.
    + intros t r Ht Hr. apply (Hfirst t (snd r) Ht).
      now apply (map_nth_error snd) in Hr.
    + intros (r & Hr & Hinf). apply (in_map snd) in Hr.
      apply Hmax in Hr. rewrite Hinf in Hr.
      destruct s; simpl in Hr; try contradiction. reflexivity.
Qed.

Lemma select_best_first_maximum_witness :
  exists j p s,
    select_best [(1%nat, Fin 3); (2%nat, PInf); (3%nat, PInf)] = Ok (p, s)
    /\ nth_error [(1%nat, Fin 3); (2%nat, PInf); (3%nat, PInf)] j = Some (p, s)
    /\ s = PInf.
Proof.
  destruct (select_best_first_maximum
              [(1%nat, Fin 3); (2%nat, PInf); (3%nat, PInf)])
    as (j & p & s & Hsel & Hj & _ & _ & Hinf).
  - discriminate.
  - repeat constructor; discriminate.
  - exists j, p, s. split; [exact Hsel|]. split; [exact Hj|].
    apply Hinf. exists (2%nat, PInf). split; [right; left|]; reflexivity.
Defined.

(** X6: As soon as one score is NaN, the selection returns the first entry
    whose score is NaN, whatever the other scores are. *)
Theorem select_best_first_nan {P : Type} (before after : list (P * float64))
        (p : P) :
  Forall (fun r => snd r <> NaN) before ->
  select_best (before ++ (p, NaN) :: after) = Ok (p, NaN).
Proof.
  intros Hb. unfold select_best.
  assert (Hj : argmax (map snd (before ++ (p, NaN) :: after))
               = Some (length before)).
  { rewrite map_app. simpl. destruct before as [|[p0 s0] before]; simpl.
    - f_equal. destruct (map snd after); reflexivity.
    - inversion Hb as [|? ? H0 Hb']; subst. simpl in H0.
      rewrite argmax_scan_first_nan;
        [now rewrite length_map | exact H0 | now apply Forall_map]. }
  rewrite Hj. apply getitem_of_nat.
  rewrite nth_error_app2 by lia.
  now replace (length before - length before)%nat with 0%nat by lia.
Qed.

Lemma select_best_first_nan_witness :
  select_best ([(1%nat, Fin 5); (2%nat, PInf)] ++ (3%nat, NaN) :: [(4%nat, Fin 9)])
  = Ok (3%nat, NaN).
Proof.
  apply (select_best_first_nan [(1%nat, Fin 5); (2%nat, PInf)] [(4%nat, Fin 9)]).
  repeat constructor; discriminate.
Defined.

(** ** The order of the cluster list *)

Lemma StronglySorted_seq (s n : nat) : StronglySorted lt (seq s n).
Proof.
  revert s; induction n as [|n IH]; intros s; simpl; constructor; [apply IH|].
  apply Forall_forall. intros j Hj. apply in_seq in Hj. lia.
Qed.

Lemma StronglySorted_filter {A : Type} (R : A -> A -> Prop) (f : A -> bool)
      (l : list A) :
  StronglySorted R l -> StronglySorted R (filter f l).
Proof.
  induction 1 as [|a l _ IH Ha]; simpl; [constructor|].
  destruct (f a); [|exact IH]. constructor; [exact IH|].
  apply Forall_forall. intros b Hb. apply filter_In in Hb as [Hb _].
  rewrite Forall_forall in Ha. auto.
Qed.

Lemma StronglySorted_map_of_nat (l : list nat) :
  StronglySorted lt l -> StronglySorted Z.lt (map Z.of_nat l).
Proof.
  induction 1 as [|a l _ IH Ha]; simpl; constructor; [exact IH|].
  apply Forall_map. eapply Forall_impl; [|exact Ha]. intros b Hb. simpl. lia.
Qed.

Lemma members_from_sorted (s : nat) (v : Z) (labels : list Z) :
  StronglySorted lt (members_from s v labels)
  /\ Forall (fun i => (s <= i)%nat) (members_from s v labels).
Proof.
  revert s; induction labels as [|l labels IH]; intros s; simpl.
  - split; constructor.
  - destruct (IH (S s)) as [IH1 IH2].
    assert (H2 : Forall (fun i => (s <= i)%nat) (members_from (S s) v labels))
      by (eapply Forall_impl; [|exact IH2]; intros; simpl in *; lia).
    destruct (Z.eqb l v); [|split; assumption].
    split; constructor; auto.
Qed.

Lemma StronglySorted_lt_NoDup (l : list Z) : StronglySorted Z.lt l -> NoDup l.
Proof.
  induction 1 as [|a l _ IH Ha]; constructor; [|exact IH].
  intros Hin. rewrite Forall_forall in Ha. apply Ha in Hin. lia.
Qed.

(** For non-negative labels, the cluster list lists the member sets of the
    distinct labels in increasing order of label. *)
Lemma build_clusters_label_order (labels : list Z) :
  Forall (fun l => (0 <= l)%Z) labels ->
  exists vs,
    build_clusters labels = Ok (map (fun v => members v labels) vs)
    /\ StronglySorted Z.lt vs
    /\ (forall v, In v vs <-> In v labels).
Proof.
  intros Hpos. destruct (build_clusters_members labels Hpos) as (n & Hn & Hcl).
  exists (map Z.of_nat
              (filter (fun j => nonempty (members (Z.of_nat j) labels)) (seq 0 n))).
  split; [|split].
  - rewrite Hcl, filter_map_swap, map_map. reflexivity.
  - apply StronglySorted_map_of_nat, StronglySorted_filter, StronglySorted_seq.
  - intros v. rewrite in_map_iff. split.
    + intros (j & <- & Hj). apply filter_In in Hj as [_ Hj].
      destruct (in_dec Z.eq_dec (Z.of_nat j) labels) as [Hin|Hnin]; [exact Hin|].
      apply members_nil_iff in Hnin. rewrite Hnin in Hj. discriminate.
    + intros Hv. rewrite Forall_forall in Hn. pose proof (Hn v Hv) as [H0 H1].
      exists (Z.to_nat v). split; [lia|]. apply filter_In. split.
      * apply in_seq. lia.
      * rewrite Z2Nat.id by lia.
        destruct (members v labels) eqn:E; [|reflexivity].
        apply members_nil_iff in E. contradiction.
Qed.

(** X7: On a well-indexed input the cluster list is ordered by label value,
    not by first occurrence: there is a strictly increasing list of the
    distinct labels such that cluster number [a] is the set of the points
    carrying the [a]-th of them; within a cluster the point indices
    increase. *)
Theorem clusters_in_label_order X nodes_elements cand :
  well_indexed X nodes_elements cand ->
  exists t vs,
    compute_aic_locals X nodes_elements cand = Ok t
    /\ StronglySorted Z.lt vs
    /\ (forall v, In v vs <-> In v (labels_unique t))
    /\ clusters t = map (fun v => members v (labels_unique t)) vs
    /\ (forall v i, In i (members v (labels_unique t))
                    <-> nth_error (labels_unique t) i = Some v)
    /\ Forall (StronglySorted lt) (clusters t).
Proof.
  intros Hwi.
  destruct (well_indexed_run _ _ _ Hwi) as (labels & cl & _ & _ & _ & Hr & Hcl & Hrun).
  destruct (build_clusters_label_order labels (in_range_nonneg _ _ Hr))
    as (vs & Hvs & Hsorted & Hin).
  rewrite Hcl in Hvs. inversion Hvs; subst cl; clear Hvs.
  eexists. exists vs. split; [exact Hrun|].
  cbn [locals_of labels_unique clusters].
  split; [exact Hsorted|]. split; [exact Hin|]. split; [reflexivity|]. split.
  - intros v i. unfold members. rewrite members_from_In. split.
    + intros (t & -> & Ht). exact Ht.
    + intros Ht. exists i. split; [reflexivity | exact Ht].
  - apply Forall_map. apply Forall_forall. intros v _.
    apply (members_from_sorted 0 v labels).
Qed.

Lemma clusters_in_label_order_witness :
  exists t vs,
    compute_aic_locals X_far nodes_pairs [[1]; [0]; [1]; [1]]%Z = Ok t
    /\ StronglySorted Z.lt vs
    /\ (forall v, In v vs <-> In v (labels_unique t))
    /\ clusters t = map (fun v => members v (labels_unique t)) vs
    /\ labels_unique t = [1; 0; 1; 1]%Z
    /\ clusters t = [[1]; [0; 2; 3]]%nat.
Proof.
  destruct (clusters_in_label_order X_far nodes_pairs [[1]; [0]; [1]; [1]]%Z)
    as (t & vs & Ht & Hs & Hin & Hcl & _); [solve_valid|].
  exists t, vs. repeat (split; [assumption|]).
  rewrite (run_with _ _ _ [1; 0; 1; 1]%Z [[1]; [0; 2; 3]]%nat) in Ht.
  - inversion Ht. split; reflexivity.
  - solve_valid.
  - unfold hard_labels. rewrite centroids_of_valid by solve_valid. reflexivity.
  - reflexivity.
Defined.

(** X8: On a well-indexed input the number of clusters [k] does not exceed
    the number of Mapper nodes. *)
Theorem clusters_at_most_nodes X nodes_elements cand :
  well_indexed X nodes_elements cand ->
  exists t,
    compute_aic_locals X nodes_elements cand = Ok t
    /\ (length (clusters t) <= length nodes_elements)%nat.
Proof.
  intros Hwi.
  destruct (well_indexed_run _ _ _ Hwi) as (labels & cl & _ & _ & _ & Hr & Hcl & Hrun).
  destruct (build_clusters_label_order labels (in_range_nonneg _ _ Hr))
    as (vs & Hvs & Hsorted & Hin).
  rewrite Hcl in Hvs. inversion Hvs; subst cl; clear Hvs.
  eexists. split; [exact Hrun|]. cbn [locals_of clusters].
  rewrite length_map.
  assert (Hle : (length vs
                 <= length (map Z.of_nat (seq 0 (length nodes_elements))))%nat).
  { apply NoDup_incl_length; [now apply StronglySorted_lt_NoDup|].
    intros v Hv. apply Hin in Hv. rewrite Forall_forall in Hr.
    destruct (Hr v Hv) as [H0 H1]. apply in_map_iff.
    exists (Z.to_nat v). split; [lia|]. apply in_seq. lia. }
  now rewrite length_map, length_seq in Hle.
Qed.

Lemma clusters_at_most_nodes_witness :
  exists t,
    compute_aic_locals X_line nodes_overlap cells_overlap = Ok t
    /\ (length (clusters t) <= length nodes_overlap)%nat.
Proof.
  apply (clusters_at_most_nodes X_line nodes_overlap cells_overlap).
  solve_valid.
Defined.

(** ** The exceptions of [compute_aic] *)

Lemma only_getitem {A : Type} (l : list A) (i : Z) : only_IndexError (getitem l i).
Proof.
  unfold only_IndexError, getitem. intros e.
  destruct (norm_index (length l) i) as [n|]; [destruct (nth_error l n)|];
    intros H; inversion H; reflexivity.
Qed.

Lemma only_bind {A B : Type} (m : result A) (f : A -> result B) :
  only_IndexError m -> (forall a, m = Ok a -> only_IndexError (f a)) ->
  only_IndexError (bind m f).
Proof.
  intros Hm Hf e. destruct m as [a|e']; simpl.
  - now apply Hf.
  - intros H. inversion H; subst. now apply Hm.
Qed.

Lemma only_Ok {A : Type} (a : A) : only_IndexError (Ok a).
Proof. intros e H. discriminate. Qed.

Lemma only_mapM {A B : Type} (f : A -> result B) (l : list A) :
  (forall a, In a l -> only_IndexError (f a)) -> only_IndexError (mapM f l).
Proof.
  induction l as [|a l IH]; intros H; simpl; [apply only_Ok|].
  apply only_bind; [apply H; now left|]. intros b _.
  apply only_bind; [apply IH; intros; apply H; now right|].
  intros bs _. apply only_Ok.
Qed.

Lemma only_centroids_of X nodes_elements :
  only_IndexError (centroids_of X nodes_elements).
Proof.
  unfold centroids_of. apply only_mapM. intros el _.
  apply only_bind; [|intros; apply only_Ok].
  unfold take. apply only_mapM. intros; apply only_getitem.
Qed.








Lemma labels_loop_first_fault X nodes_elements (good : list (list Z)) :
  forall (xs : list (list R)) (rest : list (list Z)),
    Forall (fun p => p <> []) good ->
    Forall (Forall (in_range (length nodes_elements))) good ->
    (length good < length xs)%nat ->
    labels_loop (table X nodes_elements) xs (good ++ [] :: rest)
    = Raise ValueError
    /\ labels_loop (table X nodes_elements) xs good = Raise IndexError.
Proof.
  induction good as [|g good IH]; intros xs rest Hne Hr Hlen.
  - destruct xs as [|x xs]; [simpl in Hlen; lia|]. split; reflexivity.
  - destruct xs as [|x xs]; [simpl in Hlen; lia|].
    inversion Hne; inversion Hr; subst. simpl in Hlen |- *.
    destruct (resolve_point_valid X nodes_elements x g) as (l & Hl & _); auto.
    rewrite Hl. cbn [bind].
    destruct (IH xs rest) as [IH1 IH2]; [assumption | assumption | lia|].
    rewrite IH1, IH2. split; reflexivity.
Qed.

(** X10: On an input whose nodes are valid, when the candidate lists of the
    points before the first fault are non-empty with identifiers in range:
    the first fault decides the exception.  An empty candidate list gives
    [ValueError] (from [np.argmin]); a missing candidate list gives
    [IndexError]. *)
Theorem first_fault_decides_exception X nodes_elements
        (good rest : list (list Z)) :
  Forall (fun el => el <> [] /\ Forall (in_range (npoints X)) el) nodes_elements ->
  Forall (fun p => p <> []) good ->
  Forall (Forall (in_range (length nodes_elements))) good ->
  (length good < npoints X)%nat ->
  compute_aic X nodes_elements (good ++ [] :: rest) = Raise ValueError
  /\ compute_aic X nodes_elements good = Raise IndexError.
Proof.
  intros Hnodes Hne Hr Hlen.
  unfold compute_aic, compute_aic_locals.
  rewrite (centroids_of_valid X nodes_elements Hnodes). cbn [bind].
  destruct (labels_loop_first_fault X nodes_elements good (rows X) rest Hne Hr Hlen)
    as [H1 H2].
  rewrite H1, H2. split; reflexivity.
Qed.

Lemma first_fault_decides_exception_witness :
  compute_aic X_far nodes_pairs ([[0]; [0; 1]]%Z ++ [] :: [[1]]%Z)
  = Raise ValueError
  /\ compute_aic X_far nodes_pairs [[0]; [0; 1]]%Z = Raise IndexError.
Proof.
  apply (first_fault_decides_exception X_far nodes_pairs
           [[0]; [0; 1]]%Z [[1]]%Z).
  - solve_valid.
  - repeat constructor; discriminate.
  - solve_valid.
  - unfold npoints. simpl. lia.
Defined.

(** X11: An element of a node that is not an index of [X] (below [-N], or
    [N] and above) makes step 1 fail: [compute_aic] raises [IndexError]
    whatever the candidate lists are. *)
Theorem node_element_out_of_bounds X nodes_elements cand el j :
  In el nodes_elements -> In j el ->
  (j < - Z.of_nat (npoints X) \/ Z.of_nat (npoints X) <= j)%Z ->
  compute_aic X nodes_elements cand = Raise IndexError.
Proof.
  intros Hel Hj Hout.
  assert (Hr : raises (centroids_of X nodes_elements)).
  { unfold centroids_of. apply (mapM_raises _ _ el Hel).
    apply raises_bind. unfold take. apply (mapM_raises _ _ j Hj).
    now apply getitem_raises. }
  destruct Hr as [e He]. pose proof (only_centroids_of X nodes_elements e He).
  subst e. unfold compute_aic, compute_aic_locals. now rewrite He.
Qed.

Lemma node_element_out_of_bounds_witness :
  compute_aic X_far [[0; 1]; [2; 4]]%Z cells_pairs = Raise IndexError.
Proof.
  apply (node_element_out_of_bounds X_far [[0; 1]; [2; 4]]%Z cells_pairs
                                    [2; 4]%Z 4%Z).
  - right. now left.
  - right. now left.
  - unfold npoints. simpl. lia.
Defined.

(** ** The shortcut outside valid inputs *)

Lemma centroids_of_in_bounds X nodes_elements :
  Forall (Forall (in_range (npoints X))) nodes_elements ->
  exists C, centroids_of X nodes_elements = Ok C
            /\ length C = length nodes_elements.
Proof.
  intros H.
  exists (map (fun el => mean_axis0 (ncols X) (map (at_ [] (rows X)) el))
              nodes_elements).
  split; [|apply length_map].
  unfold centroids_of. apply mapM_Ok_map.
  eapply Forall_impl; [|exact H]. intros el Hel.
  now rewrite (take_in_range [] _ _ Hel).
Qed.

Lemma labels_loop_singletons C (xs : list (list R)) :
  forall cand,
    length cand = length xs ->
    Forall (fun p => length p = 1%nat) cand ->
    labels_loop C xs cand = Ok (map (hd 0%Z) cand).
Proof.
  induction xs as [|x xs IH]; intros [|p cand] Hlen Hs; simpl in *;
    try discriminate; [reflexivity|].
  inversion Hs as [|? ? Hp Hs']; subst.
  destruct p as [|c [|c' p]]; try discriminate.
  rewrite resolve_point_single. cbn [bind].
  rewrite IH by (assumption || lia). reflexivity.
Qed.

Lemma resolve_point_general_single C (x : list R) (c : Z) :
  resolve_point_general C x [c] = bind (getitem C c) (fun _ => Ok c).
Proof.
  unfold resolve_point_general, distances. simpl.
  destruct (getitem C c); reflexivity.
Qed.

Lemma labels_loop_general_singletons C (xs : list (list R)) :
  forall cand,
    length cand = length xs ->
    Forall (fun p => length p = 1%nat) cand ->
    Exists (fun p => exists c, In c p /\ raises (getitem C c)) cand ->
    labels_loop_general C xs cand = Raise IndexError.
Proof.
  induction xs as [|x xs IH]; intros [|p cand] Hlen Hs Hex; simpl in *;
    try discriminate; [inversion Hex|].
  inversion Hs as [|? ? Hp Hs']; subst.
  destruct p as [|c [|c' p]]; try discriminate.
  rewrite resolve_point_general_single.
  destruct (getitem C c) as [a|e] eqn:E; cbn [bind].
  - rewrite IH; [reflexivity | lia | exact Hs'|].
    inversion Hex as [? ? Hhd|? ? Htl]; subst; [|exact Htl].
    destruct Hhd as (c0 & Hc0 & e & He). destruct Hc0 as [<-|[]]. congruence.
  - now rewrite (only_getitem C c e E).
Qed.

(** X12: For a point with a single candidate the Resolver consults neither
    [X] nor the centroid table: when every point has exactly one candidate,
    an integer that fits in [int64] (and step 1 succeeds), the labels are the
    sole candidates even if one of them designates no node, whereas the
    general rule would raise [IndexError] on it. *)
Theorem shortcut_skips_centroid_lookup X nodes_elements cand :
  Forall (Forall (in_range (npoints X))) nodes_elements ->
  length cand = npoints X ->
  Forall (fun p => length p = 1%nat) cand ->
  Forall (Forall int64) cand ->
  hard_labels X nodes_elements cand = Ok (map (hd 0%Z) cand)
  /\ (Exists (fun p => exists c,
                  In c p
                  /\ (c < - Z.of_nat (length nodes_elements)
                      \/ Z.of_nat (length nodes_elements) <= c)%Z) cand ->
      hard_labels_general X nodes_elements cand = Raise IndexError).
Proof.
  intros Hnodes Hlen Hs _.
  destruct (centroids_of_in_bounds X nodes_elements Hnodes) as (C & HC & HlenC).
  unfold hard_labels, hard_labels_general. rewrite HC. cbn [bind]. split.
  - now apply labels_loop_singletons.
  - intros Hex. apply labels_loop_general_singletons; try assumption.
    apply Exists_exists in Hex as (p & Hp & c & Hc & Hout).
    apply Exists_exists. exists p. split; [exact Hp|]. exists c.
    split; [exact Hc|]. apply getitem_raises. now rewrite HlenC.
Qed.

Lemma shortcut_skips_centroid_lookup_witness :
  hard_labels X_far nodes_pairs [[0]; [0]; [1]; [7]]%Z = Ok [0; 0; 1; 7]%Z
  /\ hard_labels_general X_far nodes_pairs [[0]; [0]; [1]; [7]]%Z
     = Raise IndexError.
Proof.
  destruct (shortcut_skips_centroid_lookup X_far nodes_pairs
              [[0]; [0]; [1]; [7]]%Z) as [H1 H2].
  - solve_valid.
  - reflexivity.
  - repeat constructor.
  - repeat constructor; unfold int64; lia.
  - split; [exact H1|]. apply H2.
    do 3 constructor 2. constructor. exists 7%Z. split; [now left | simpl; lia].
Defined.

(** ** [np.argmin] on any floats *)

Lemma fgeb_fle (x y : float64) : fgeb x y = true <-> fle y x.
Proof.
  destruct x as [a| | |], y as [b| | |]; simpl;
    try (split; [discriminate | tauto]); try tauto.
  destruct (Rlt_dec a b); split; intros; try discriminate; try lra; reflexivity.
Qed.

Lemma argmin_scan_no_nan (l : list float64) :
  forall (pre : list float64) (mp : float64) (mi : nat),
    Forall (fun y => y <> NaN) l -> mp <> NaN ->
    nth_error pre mi = Some mp ->
    (forall y, In y pre -> fle mp y) ->
    (forall t y, (t < mi)%nat -> nth_error pre t = Some y -> ~ fle y mp) ->
    exists v,
      nth_error (pre ++ l) (argmin_scan mi mp (length pre) l) = Some v
      /\ (forall y, In y (pre ++ l) -> fle v y)
      /\ (forall t y, (t < argmin_scan mi mp (length pre) l)%nat ->
                      nth_error (pre ++ l) t = Some y -> ~ fle y v).
Proof.
  induction l as [|x l IH]; intros pre mp mi Hl Hmp Hmi Hmin Hfirst.
  - simpl. rewrite app_nil_r. exists mp. auto.
  - inversion Hl as [|? ? Hx Hl']; subst.
    assert (Hlt : (mi < length pre)%nat) by (apply nth_error_Some; congruence).
    replace (pre ++ x :: l) with ((pre ++ [x]) ++ l) by (now rewrite <- app_assoc).
    assert (Elen : S (length pre) = length (pre ++ [x]))
      by (rewrite length_app; simpl; lia).
    simpl. destruct mp as [m| | |] eqn:Emp; try congruence; simpl;
      rewrite <- Emp in *; clear Emp.
    all: destruct (fgeb x mp) eqn:E; simpl; rewrite Elen.
    all: try (apply IH; try assumption;
              [ rewrite nth_error_app1 by lia; exact Hmi
              | intros y Hy; apply in_app_or in Hy as [Hy|[<-|[]]];
                [auto | now apply fgeb_fle]
              | intros t y Ht Hy; rewrite nth_error_app1 in Hy by lia; eauto ]).
    all: assert (Hn : ~ fle mp x)
        by (intros Hc; apply fgeb_fle in Hc; congruence);
      assert (Hxm : fle x mp)
        by (destruct (fle_total x mp Hx Hmp); [assumption | contradiction]).
    all: replace (length pre) with (length pre + 0)%nat at 1 by lia;
      replace (length pre + 0)%nat with (length pre) by lia;
      apply IH; try assumption;
      [ rewrite nth_error_app2 by lia;
        replace (length pre - length pre)%nat with 0%nat by lia; reflexivity
      | intros y Hy; apply in_app_or in Hy as [Hy|[<-|[]]];
        [apply (fle_trans x mp y); auto | now apply fle_refl]
      | intros t y Ht Hy Hc; rewrite nth_error_app1 in Hy by lia;
        apply nth_error_In in Hy; apply Hn; apply (fle_trans mp y x); auto ].
Qed.

Lemma argmin_scan_first_nan (pre rest : list float64) :
  forall (mi : nat) (mp : float64) (i : nat),
    mp <> NaN -> Forall (fun y => y <> NaN) pre ->
    argmin_scan mi mp i (pre ++ NaN :: rest) = (i + length pre)%nat.
Proof.
  induction pre as [|x pre IH]; intros mi mp i Hmp Hpre; simpl.
  - destruct mp; try congruence; simpl;
      destruct rest; simpl; lia.
  - inversion Hpre as [|? ? Hx Hpre']; subst.
    destruct mp; try congruence; simpl.
    all: destruct (fgeb x _); simpl; rewrite IH by assumption; lia.
Qed.

Lemma first_nan_split (ds : list float64) :
  Forall (fun y => y <> NaN) ds
  \/ exists pre rest, ds = pre ++ NaN :: rest /\ Forall (fun y => y <> NaN) pre.
Proof.
  induction ds as [|x ds IH]; [left; constructor|].
  destruct x as [r| | |].
  4:{ right. exists [], ds. split; [reflexivity | constructor]. }
  all: destruct IH as [IH|(pre & rest & -> & Hpre)];
    [ left; constructor; [discriminate | exact IH]
    | right; eexists (_ :: pre), rest; split;
      [reflexivity | constructor; [discriminate | exact Hpre]] ].
Qed.

(** [np.argmin] on any floats. *)
Lemma argmin_first_least (ds : list float64) :
  ds <> [] -> exists j, argmin ds = Some j /\ first_least ds j.
Proof.
  intros Hne. destruct (first_nan_split ds) as [Hnn|(pre & rest & -> & Hpre)].
  - destruct ds as [|x ds]; [congruence|].
    inversion Hnn as [|? ? Hx Hnn']; subst.
    destruct (argmin_scan_no_nan ds [x] x 0%nat Hnn' Hx) as (v & Hv & Hmin & Hfirst).
    + reflexivity.
    + intros y [<-|[]]. now apply fle_refl.
    + intros t y Ht. lia.
    + simpl in Hv, Hmin, Hfirst. exists (argmin_scan 0 x 1 ds).
      split; [reflexivity|]. exists v. split; [exact Hv|]. split.
      * intros _. split; [exact Hmin | exact Hfirst].
      * intros ->. apply nth_error_In in Hv.
        rewrite Forall_forall in Hnn. now apply Hnn in Hv.
  - exists (length pre). split.
    + destruct pre as [|x pre]; simpl.
      * f_equal. destruct rest; reflexivity.
      * inversion Hpre as [|? ? Hx Hpre']; subst.
        now rewrite argmin_scan_first_nan.
    + exists NaN. split.
      * rewrite nth_error_app2 by lia.
        now replace (length pre - length pre)%nat with 0%nat by lia.
      * split; [congruence|]. intros _ t y Ht Hy.
        rewrite nth_error_app1 in Hy by lia. apply nth_error_In in Hy.
        rewrite Forall_forall in Hpre. now apply Hpre.
Qed.

Lemma first_least_lt (ds : list float64) (j : nat) :
  first_least ds j -> (j < length ds)%nat.
Proof. intros (v & Hv & _). apply nth_error_Some. congruence. Qed.

Lemma distances_with_in_range dist_fl (C : list (list float64)) (x : list R)
      (p : list Z) :
  Forall (in_range (length C)) p ->
  distances_with dist_fl C x p = Ok (map (fun c => dist_fl x (at_ [] C c)) p).
Proof.
  intros Hr. unfold distances_with. apply mapM_Ok_map.
  eapply Forall_impl; [|exact Hr]. intros c Hc.
  now rewrite (getitem_in_range [] C c Hc).
Qed.

(** One point: the label is the candidate at the position that [np.argmin]
    returns on the computed distances. *)
Lemma resolve_point_with_spec dist_fl (C : list (list float64)) (x : list R)
      (p : list Z) :
  p <> [] -> Forall (in_range (length C)) p ->
  exists l j,
    resolve_point_with dist_fl C x p = Ok l
    /\ nth_error p j = Some l
    /\ first_least (map (fun c => dist_fl x (at_ [] C c)) p) j.
Proof.
  intros Hne Hr. unfold resolve_point_with.
  destruct (Nat.eqb (length p) 1) eqn:E.
  - apply Nat.eqb_eq in E. destruct p as [|c [|c' p]]; try discriminate.
    exists c, 0%nat. split; [reflexivity|]. split; [reflexivity|].
    exists (dist_fl x (at_ [] C c)). split; [reflexivity|]. split.
    + intros Hv. split; [|intros t y Ht; lia].
      intros y [<-|[]]. now apply fle_refl.
    + intros _ t y Ht. lia.
  - rewrite (distances_with_in_range dist_fl C x p Hr). cbn [bind].
    destruct (argmin_first_least (map (fun c => dist_fl x (at_ [] C c)) p))
      as (j & -> & Hj).
    { destruct p; [congruence | discriminate]. }
    pose proof (first_least_lt _ _ Hj) as Hlt. rewrite length_map in Hlt.
    destruct (nth_error p j) as [l|] eqn:El.
    2:{ apply nth_error_None in El. lia. }
    exists l, j. split; [now apply getitem_of_nat|]. split; [exact El | exact Hj].
Qed.

(** All the points. *)
Lemma labels_loop_with_spec dist_fl (C : list (list float64)) (xs : list (list R)) :
  forall cand : list (list Z),
    length cand = length xs ->
    Forall (fun p => p <> []) cand ->
    Forall (Forall (in_range (length C))) cand ->
    exists labels,
      labels_loop_with dist_fl C xs cand = Ok labels
      /\ length labels = length xs
      /\ Forall (in_range (length C)) labels
      /\ forall i x p l,
           nth_error xs i = Some x -> nth_error cand i = Some p ->
           nth_error labels i = Some l ->
           exists j, nth_error p j = Some l
                     /\ first_least (map (fun c => dist_fl x (at_ [] C c)) p) j.
Proof.
  induction xs as [|x xs IH]; intros cand Hlen Hne Hr.
  - exists []. split; [reflexivity|]. split; [reflexivity|]. split; [constructor|].
    intros [|i] ? ? ? H; discriminate.
  - destruct cand as [|p cand]; [discriminate|].
    inversion Hne as [|? ? Hp Hne']; subst.
    inversion Hr as [|? ? Hrp Hr']; subst.
    destruct (resolve_point_with_spec dist_fl C x p Hp Hrp) as (l & j & Hl & Hj & Hfl).
    destruct (IH cand) as (labels & Hls & Hlen' & Hin & Hspec);
      [simpl in Hlen; lia | assumption | assumption |].
    exists (l :: labels). cbn [labels_loop_with]. rewrite Hl. cbn [bind].
    rewrite Hls. cbn [bind]. split; [reflexivity|].
    split; [simpl; lia|]. split.
    + constructor; [|exact Hin]. rewrite Forall_forall in Hrp.
      apply Hrp. now apply nth_error_In in Hj.
    + intros [|i] x' p' l' Hx' Hp' Hl'; simpl in Hx', Hp', Hl'.
      * inversion Hx'; inversion Hp'; inversion Hl'; subst. eauto.
      * eauto.
Qed.

(** The loop of the embedding is the loop for the exact arithmetic. *)
Lemma labels_loop_with_exact (C : list (list float64)) (xs : list (list R)) :
  forall cand, labels_loop C xs cand = labels_loop_with exact_distance C xs cand.
Proof.
  induction xs as [|x xs IH]; intros [|p cand]; try reflexivity.
  cbn [labels_loop labels_loop_with].
  change (resolve_point_with exact_distance C x p) with (resolve_point C x p).
  now rewrite IH.
Qed.

Lemma compute_aic_locals_with_exact X nodes_elements cand :
  compute_aic_locals X nodes_elements cand
  = compute_aic_locals_with exact X nodes_elements cand.
Proof.
  unfold compute_aic_locals, compute_aic_locals_with.
  change (centroids_of_with exact X nodes_elements)
    with (centroids_of X nodes_elements).
  destruct (centroids_of X nodes_elements) as [C|e]; [|reflexivity].
  cbn [bind]. rewrite labels_loop_with_exact. reflexivity.
Qed.

(** ** A whole run, whatever the arithmetic *)

Lemma centroids_of_with_valid (A : arithmetic) X (nodes_elements : list (list Z)) :
  Forall (Forall (in_range (npoints X))) nodes_elements ->
  exists C, centroids_of_with A X nodes_elements = Ok C
            /\ length C = length nodes_elements.
Proof.
  unfold centroids_of_with.
  induction nodes_elements as [|el ne IH]; intros H.
  - exists []. split; reflexivity.
  - inversion H as [|? ? Hel Hne]; subst.
    destruct (IH Hne) as (C & HC & Hlen).
    cbn [mapM]. rewrite (take_in_range [] (rows X) el Hel). cbn [bind].
    rewrite HC. cbn [bind]. eexists. split; [reflexivity|]. simpl. lia.
Qed.

Lemma run_with_arithmetic (A : arithmetic) X nodes_elements cand :
  well_indexed X nodes_elements cand ->
  exists C labels cl ss,
    centroids_of_with A X nodes_elements = Ok C
    /\ length C = length nodes_elements
    /\ labels_loop_with (norm_fl A) C (rows X) cand = Ok labels
    /\ length labels = npoints X
    /\ Forall (in_range (length nodes_elements)) labels
    /\ (forall i x p l,
           nth_error (rows X) i = Some x -> nth_error cand i = Some p ->
           nth_error labels i = Some l ->
           exists j, nth_error p j = Some l
                     /\ first_least (map (fun c => norm_fl A x (at_ [] C c)) p) j)
    /\ build_clusters labels = Ok cl
    /\ compute_aic_locals_with A X nodes_elements cand
       = Ok (let N := Z.of_nat (npoints X) in
             let d := Z.of_nat (ncols X) in
             let k := Z.of_nat (length cl) in
             let sizes := map (fun c => Z.of_nat (length c)) cl in
             let s := sigma_sq_of N d k ss in
             mk_locals labels cl sizes s (aic_of N d k sizes s)).
Proof.
  intros [Hwf HN Hlen Hne Hr Hnodes].
  destruct (centroids_of_with_valid A X nodes_elements) as (C & HC & HlenC).
  { eapply Forall_impl; [|exact Hnodes]. intros el [_ H]. exact H. }
  rewrite <- HlenC in Hr.
  destruct (labels_loop_with_spec (norm_fl A) C (rows X) cand Hlen Hne Hr)
    as (labels & Hl & Hlenl & Hlr & Hspec).
  destruct (build_clusters_members labels (in_range_nonneg _ _ Hlr))
    as (n & _ & Hcl).
  exists C, labels. eexists. exists (sum_sq_fl A (rows X) (map (at_ [] C) labels)).
  split; [exact HC|]. split; [exact HlenC|]. split; [exact Hl|].
  split; [exact Hlenl|]. split; [now rewrite <- HlenC|]. split; [exact Hspec|].
  split; [exact Hcl|].
  unfold compute_aic_locals_with. rewrite HC. cbn [bind]. rewrite Hl. cbn [bind].
  unfold score_locals_with. rewrite Hcl. cbn [bind].
  unfold sum_sq_residuals_with. rewrite (take_in_range [] C labels Hlr). cbn [bind].
  unfold npoints in *. destruct (rows X) as [|x xs]; [simpl in HN; lia|].
  destruct C; reflexivity.
Qed.

Lemma sigma_sq_of_zero_divisor (N d : Z) (ss : float64) :
  sigma_sq_of N d N ss = PInf \/ sigma_sq_of N d N ss = NInf
  \/ sigma_sq_of N d N ss = NaN.
Proof.
  unfold sigma_sq_of, of_int. replace (d * (N - N))%Z with 0%Z by lia.
  destruct ss as [r| | |]; simpl.
  - destruct (Req_dec_T 0 0); [|congruence].
    unfold Rsign. destruct (Rlt_dec r 0); [simpl; tauto|].
    destruct (Rlt_dec 0 r); simpl; tauto.
  - destruct (Rlt_dec 0 0); [lra | tauto].
  - destruct (Rlt_dec 0 0); [lra | tauto].
  - tauto.
Qed.

Lemma aic_of_NInf (N d k : Z) (sizes : list Z) :
  (1 <= N)%Z -> Forall (fun s => (1 <= s)%Z) sizes ->
  aic_of N d k sizes NInf = NaN.
Proof.
  intros HN Hsizes. unfold aic_of. rewrite (sizes_term_Fin sizes Hsizes).
  unfold of_int. rewrite flog_pos by (apply IZR_lt; lia). cbn [fmul].
  assert (HS2 : Rsign (2 * PI) = Gt).
  { unfold Rsign. pose proof PI_RGT_0.
    destruct (Rlt_dec (2 * PI) 0); [lra|].
    destruct (Rlt_dec 0 (2 * PI)); [reflexivity | lra]. }
  rewrite HS2. reflexivity.
Qed.

(** C3, as the code has it: [compute_aic] has no degeneracy check.  Whatever
    the rounding of its array arithmetic, it never raises on a valid input:
    it returns a float, and [1 <= k <= N].  When the [sigma_sq] that it
    computed is [0] the float returned is [+inf]; when it is [+inf] the float
    returned is [-inf]; when it is NaN the float returned is NaN.  When
    [N = k], [sigma_sq] is a float division by zero, never a finite number,
    and the float returned is [-inf] or NaN.  The function of the embedding
    is the one for the exact arithmetic. *)
Theorem degenerate_clusterings_are_not_rejected :
  (forall (A : arithmetic) X nodes_elements cand,
      valid_input X nodes_elements cand ->
      exists t,
        compute_aic_locals_with A X nodes_elements cand = Ok t
        /\ compute_aic_with A X nodes_elements cand = Ok (aic t)
        /\ (1 <= length (clusters t) <= npoints X)%nat
        /\ (sigma_sq t = Fin 0 -> aic t = PInf)
        /\ (sigma_sq t = PInf -> aic t = NInf)
        /\ (sigma_sq t = NaN -> aic t = NaN)
        /\ (length (clusters t) = npoints X ->
            (sigma_sq t = PInf /\ aic t = NInf)
            \/ ((sigma_sq t = NInf \/ sigma_sq t = NaN) /\ aic t = NaN)))
  /\ (forall X nodes_elements cand,
         compute_aic X nodes_elements cand
         = compute_aic_with exact X nodes_elements cand).
Proof.
  split.
  - intros A X nodes_elements cand [Hwi Hd].
    destruct (run_with_arithmetic A _ _ _ Hwi)
      as (C & labels & cl & ss & _ & _ & _ & Hlen & _ & _ & Hcl & Hrun).
    pose proof (wi_N _ _ _ Hwi) as HN.
    pose proof (build_clusters_concat _ _ Hcl) as [_ Hne].
    pose proof (clusters_count _ _ Hcl) as [Hle Hge].
    pose proof (sizes_nonempty cl Hne) as Hsizes.
    assert (HNz : (1 <= Z.of_nat (npoints X))%Z) by lia.
    assert (Hdz : (1 <= Z.of_nat (ncols X))%Z) by lia.
    eexists. split; [exact Hrun|].
    split; [unfold compute_aic_with; rewrite Hrun; reflexivity|].
    cbn [clusters sigma_sq aic].
    split; [|split; [|split; [|split]]].
    + split; [|lia]. apply Hge. destruct labels; [simpl in Hlen; lia | discriminate].
    + intros ->. now apply aic_of_zero.
    + intros ->. now apply aic_of_PInf.
    + intros ->. now apply aic_of_NaN.
    + intros Hk. rewrite Hk.
      destruct (sigma_sq_of_zero_divisor (Z.of_nat (npoints X))
                                         (Z.of_nat (ncols X)) ss) as [E|[E|E]];
        rewrite E.
      * left. split; [reflexivity | now apply aic_of_PInf].
      * right. split; [now left | now apply aic_of_NInf].
      * right. split; [now right | now apply aic_of_NaN].
  - intros X nodes_elements cand. unfold compute_aic, compute_aic_with.
    now rewrite compute_aic_locals_with_exact.
Qed.

Lemma degenerate_clusterings_are_not_rejected_witness :
  valid_input X_two nodes_singletons cells_singletons
  /\ (compute_aic X_two nodes_singletons cells_singletons = Ok NInf
      \/ compute_aic X_two nodes_singletons cells_singletons = Ok NaN).
Proof.
  split; [solve_valid|].
  rewrite (proj2 degenerate_clusterings_are_not_rejected).
  destruct (proj1 degenerate_clusterings_are_not_rejected exact
                  X_two nodes_singletons cells_singletons)
    as (t & Ht & Hc & _ & _ & _ & _ & Hk); [solve_valid|].
  rewrite Hc.
  assert (Hlen : length (clusters t) = npoints X_two).
  { unfold compute_aic_locals_with in Ht.
    destruct (centroids_of_with exact X_two nodes_singletons) as [C|e];
      [|discriminate].
    cbn [bind] in Ht.
    change (labels_loop_with (norm_fl exact) C (rows X_two) cells_singletons)
      with (@Ok (list Z) [0; 1]%Z) in Ht.
    cbn [bind] in Ht. unfold score_locals_with in Ht.
    change (build_clusters [0; 1]%Z) with (@Ok (list (list nat)) [[0]; [1]]%nat) in Ht.
    cbn [bind] in Ht.
    destruct (sum_sq_residuals_with exact X_two C [0; 1]%Z) as [ss|e];
      [|discriminate].
    cbn [bind] in Ht. inversion Ht. reflexivity. }
  destruct (Hk Hlen) as [[_ Ha]|[_ Ha]]; rewrite Ha; [left | right]; reflexivity.
Defined.



(** ** Renaming the nodes *)










